(** * catcli: the catalog tree of [catcli/noder.py]

    A shallow embedding of class [Noder]: the node constructors, the size
    aggregator [rec_size], the sibling ordering [_sort_tree], the name
    search [find_name], the resolvers behind [get_node] and [walk], and the
    archive flattener [list_to_tree].

    Python values are modelled as follows.
    - [str] is [string] (one [ascii] per character), [int] is [Z].
    - An [anytree.AnyNode] is a record of its attributes; an attribute the
      constructor did not set is [None] at the outer [option].
    - A node reference inside a tree is the list of child indices leading to
      it from the tree root ([loc]); the tree itself is passed explicitly and
      every mutation returns the new tree.
    - A call that can raise returns an [outcome]. *)

From Stdlib Require Import List ZArith String Ascii Bool Lia Arith.
From Stdlib Require Import Permutation Sorted OrdersEx.
Import ListNotations.

Local Open Scope string_scope.
Local Open Scope list_scope.
Local Open Scope Z_scope.

Set Warnings "-register-all".

(** ** Python values and exceptions *)

Inductive pyval : Type :=
| PyNone
| PyInt (z : Z).

Inductive exn : Type :=
| AttributeError
| IndexError
| TypeError
| ValueError
| ResolverError        (* anytree.resolver.ResolverError, the base class *)
| ChildResolverError.  (* anytree.resolver.ChildResolverError, its subclass *)

Inductive outcome (A : Type) : Type :=
| Ret (a : A)
| Raise (e : exn).

Arguments Ret {A} a.
Arguments Raise {A} e.

Definition bind {A B : Type} (m : outcome A) (k : A -> outcome B) : outcome B :=
  match m with
  | Ret a => k a
  | Raise e => Raise e
  end.

Notation "x <- m ;; k" := (bind m (fun x => k))
  (at level 61, m at next level, right associativity).
Notation "' p <- m ;; k" := (bind m (fun x => match x with p => k end))
  (at level 61, p pattern, m at next level, right associativity).

(** [getattr o] reads an attribute that may be missing on the object. *)
Definition getattr {A : Type} (o : option A) : outcome A :=
  match o with
  | Some a => Ret a
  | None => Raise AttributeError
  end.

(** ** Nodes *)

Inductive node : Type := Node {
  name : string;
  type : string;
  relpath : option string;
  size : option pyval;
  md5 : option (option string);
  archive : option string;
  free : option Z;
  total : option Z;
  attr : option (option (list string));
  ts : option Z;
  children : list node
}.

Definition TOPNAME := "top".
Definition METANAME := "meta".
Definition TYPE_TOP := "top".
Definition TYPE_FILE := "file".
Definition TYPE_DIR := "dir".
Definition TYPE_ARC := "arc".
Definition TYPE_STORAGE := "storage".
Definition TYPE_META := "meta".

Definition set_size (n : node) (v : pyval) : node :=
  Node (name n) (type n) (relpath n) (Some v) (md5 n) (archive n)
       (free n) (total n) (attr n) (ts n) (children n).

Definition set_children (n : node) (cs : list node) : node :=
  Node (name n) (type n) (relpath n) (size n) (md5 n) (archive n)
       (free n) (total n) (attr n) (ts n) cs.

(** Induction over the tree, with the hypothesis available for every child. *)
Section NodeInd.
Variable P : node -> Prop.
Hypothesis step : forall n, Forall P (children n) -> P n.

Fixpoint node_ind' (n : node) : P n :=
  step n
    (match n as m return Forall P (children m) with
     | Node _ _ _ _ _ _ _ _ _ _ cs =>
         (fix all (l : list node) : Forall P l :=
            match l with
            | [] => Forall_nil P
            | c :: l' => Forall_cons c (node_ind' c) (all l')
            end) cs
     end).
End NodeInd.

(** *** Node creation *)

Definition new_top_node : node :=
  Node TOPNAME TYPE_TOP None None None None None None None None [].

(** [storage_node]: [free] and [total] come from [psutil.disk_usage], [epoch]
    from [time.time]. *)
Definition storage_node (nm : string) (free_ total_ : Z)
    (attr_ : option (list string)) (epoch : Z) : node :=
  Node nm TYPE_STORAGE None None None None
       (Some free_) (Some total_) (Some attr_) (Some epoch) [].

Definition archive_node (nm path archive_ : string) : node :=
  Node nm TYPE_ARC (Some path) (Some (PyInt 0)) (Some None) (Some archive_)
       None None None None [].

Definition _node (nm ty rp : string) (size_ : pyval) (md5_ : option string) : node :=
  Node nm ty (Some rp) (Some size_) (Some md5_) None None None None None [].

(** A child created with [parent=p] is appended to [p.children]. *)
Definition attach (p c : node) : node := set_children p (children p ++ [c]).

(** ** The aggregator *)

(** [rec_size node] returns the tree below [node] after the call together
    with the returned value.  The two tests in the loop body are on
    [node.type], which cannot be both ['dir'] and ['storage'], so they are
    written as one chain. *)
Fixpoint rec_size (n : node) : outcome (node * pyval) :=
  match n with
  | Node nm ty rp sz m a f t at_ ts_ cs =>
      if (ty =? TYPE_FILE)%string then
        v <- getattr sz ;; Ret (n, v)
      else
        '(cs', total_) <-
          (fix loop (l : list node) (acc : Z) : outcome (list node * Z) :=
             match l with
             | [] => Ret ([], acc)
             | i :: rest =>
                 if (ty =? TYPE_DIR)%string then
                   '(i', v) <- rec_size i ;;
                   match v with
                   | PyInt z =>
                       '(rest', acc') <- loop rest (acc + z) ;;
                       Ret (i' :: rest', acc')
                   | PyNone => Raise TypeError
                   end
                 else if (ty =? TYPE_STORAGE)%string then
                   '(i', _) <- rec_size i ;;
                   '(rest', acc') <- loop rest acc ;;
                   Ret (i' :: rest', acc')
                 else
                   '(rest', acc') <- loop rest acc ;;
                   Ret (i :: rest', acc')
             end) cs 0 ;;
        Ret (Node nm ty rp (Some (PyInt total_)) m a f t at_ ts_ cs', PyInt total_)
  end.

(** The loop of [rec_size] over the children of a node of type [ty]. *)
Fixpoint rec_children (ty : string) (l : list node) (acc : Z)
  : outcome (list node * Z) :=
  match l with
  | [] => Ret ([], acc)
  | i :: rest =>
      if (ty =? TYPE_DIR)%string then
        '(i', v) <- rec_size i ;;
        match v with
        | PyInt z =>
            '(rest', acc') <- rec_children ty rest (acc + z) ;;
            Ret (i' :: rest', acc')
        | PyNone => Raise TypeError
        end
      else if (ty =? TYPE_STORAGE)%string then
        '(i', _) <- rec_size i ;;
        '(rest', acc') <- rec_children ty rest acc ;;
        Ret (i' :: rest', acc')
      else
        '(rest', acc') <- rec_children ty rest acc ;;
        Ret (i :: rest', acc')
  end.

(** *** Traversal and the shape of a built tree *)

(** [anytree.PreOrderIter]: the node itself, then each child's subtree in
    child order. *)
Fixpoint preorder (n : node) : list node :=
  match n with
  | Node _ _ _ _ _ _ _ _ _ _ cs => n :: flat_map preorder cs
  end.

Definition is_type (ty : string) (n : node) : bool := (type n =? ty)%string.

Definition stored_size (n : node) : Z :=
  match size n with
  | Some (PyInt z) => z
  | _ => 0
  end.

Definition zsum (l : list Z) : Z := fold_right Z.add 0 l.

(** Sum of the stored sizes of the File nodes in the subtree of [n],
    [n] included. *)
Fixpoint file_sizes (n : node) : Z :=
  match n with
  | Node _ ty _ _ _ _ _ _ _ _ cs =>
      (if (ty =? TYPE_FILE)%string then stored_size n else 0)
      + zsum (map file_sizes cs)
  end.

(** Sum of the stored sizes of the File nodes strictly below [n]. *)
Definition descendant_file_sum (n : node) : Z :=
  zsum (map file_sizes (children n)).

(** A subtree of archive members only. *)
Fixpoint arc_tree (n : node) : bool :=
  match n with
  | Node _ ty _ _ _ _ _ _ _ _ cs =>
      (ty =? TYPE_ARC)%string && forallb arc_tree cs
  end.

Definition has_int_size (n : node) : bool :=
  match size n with
  | Some (PyInt _) => true
  | _ => false
  end.

(** A subtree as the tree builder leaves it: a Storage or a Dir holds Dirs
    and Files, a File holds its stat size and archive members only. *)
Fixpoint built (n : node) : bool :=
  match n with
  | Node _ ty _ _ _ _ _ _ _ _ cs =>
      if (ty =? TYPE_FILE)%string then
        has_int_size n && forallb arc_tree cs
      else if ((ty =? TYPE_DIR) || (ty =? TYPE_STORAGE))%string then
        forallb (fun c => (is_type TYPE_FILE c || is_type TYPE_DIR c) && built c) cs
      else false
  end.

(** What the spec asks of a Dir after aggregation. *)
Definition dir_size_ok (d : node) : Prop :=
  type d = TYPE_DIR -> size d = Some (PyInt (descendant_file_sum d)).

(** *** The catalog of the spec's first scenario *)

Definition song_mp3 : node :=
  _node "song.mp3" TYPE_FILE "usb1/music/song.mp3" (PyInt 1000) None.
Definition cover_jpg : node :=
  _node "cover.jpg" TYPE_FILE "usb1/music/cover.jpg" (PyInt 500) None.
Definition music : node :=
  attach (attach (_node "music" TYPE_DIR "music" PyNone None) song_mp3) cover_jpg.
Definition usb1 : node :=
  attach (storage_node "usb1" 2000 5000 None 1500000000) music.
Definition catalog : node := attach new_top_node usb1.

(** The same catalog after [rec_size usb1]. *)
Definition music_sized : node := set_size music (PyInt 1500).
Definition usb1_sized : node :=
  set_size (set_children usb1 [music_sized]) (PyInt 0).

(** ** Strings *)

Definition sep : ascii := "/"%char.

(** [str.lower] on ASCII letters. *)
Definition lower_ascii (c : ascii) : ascii :=
  let k := nat_of_ascii c in
  if ((65 <=? k) && (k <=? 90))%nat then ascii_of_nat (k + 32) else c.

Fixpoint lower (s : string) : string :=
  match s with
  | EmptyString => EmptyString
  | String c s' => String (lower_ascii c) (lower s')
  end.

(** [s.startswith(p)] *)
Fixpoint starts_with (p s : string) : bool :=
  match p, s with
  | EmptyString, _ => true
  | String a p', String b s' => Ascii.eqb a b && starts_with p' s'
  | String _ _, EmptyString => false
  end.

(** [sub in s] *)
Fixpoint contains (sub s : string) : bool :=
  starts_with sub s ||
  match s with
  | EmptyString => false
  | String _ s' => contains sub s'
  end.

(** [s.split(c)] for a one-character separator. *)
Fixpoint split (c : ascii) (s : string) : list string :=
  match s with
  | EmptyString => [EmptyString]
  | String a s' =>
      if Ascii.eqb a c then EmptyString :: split c s'
      else match split c s' with
           | [] => [String a EmptyString]
           | w :: ws => String a w :: ws
           end
  end.

(** [s.rstrip(c)] *)
Fixpoint rstrip (c : ascii) (s : string) : string :=
  match s with
  | EmptyString => EmptyString
  | String a s' =>
      match rstrip c s' with
      | EmptyString => if Ascii.eqb a c then EmptyString else String a EmptyString
      | r => String a r
      end
  end.

(** [s.lstrip(chars)] *)
Fixpoint lstrip (chars : list ascii) (s : string) : string :=
  match s with
  | EmptyString => EmptyString
  | String a s' => if existsb (Ascii.eqb a) chars then lstrip chars s' else s
  end.

(** [s.endswith(c)] for a one-character suffix. *)
Fixpoint endswith (c : ascii) (s : string) : bool :=
  match s with
  | EmptyString => false
  | String a EmptyString => Ascii.eqb a c
  | String _ s' => endswith c s'
  end.

(** ** The sorter *)

(** Python's [sorted(items, key=key, reverse=reverse)].  The sort is stable;
    with [reverse] the list is reversed, sorted, and reversed again, which
    keeps equal keys in their original order.  Keys are compared with [<]
    only. *)
Section PySorted.
Context {A K : Type}.
Variable ltb : K -> K -> bool.
Variable key : A -> K.

Fixpoint insert_stable (x : A) (s : list A) : list A :=
  match s with
  | [] => [x]
  | y :: s' => if ltb (key y) (key x) then y :: insert_stable x s' else x :: s
  end.

Fixpoint stable_sort (l : list A) : list A :=
  match l with
  | [] => []
  | x :: l' => insert_stable x (stable_sort l')
  end.

Definition py_sorted (reverse : bool) (l : list A) : list A :=
  if reverse then rev (stable_sort (rev l)) else stable_sort l.

(** [x] may stand before [y]: the key of [y] is not smaller. *)
Definition key_le (x y : A) : Prop := ltb (key y) (key x) = false.
End PySorted.

(** [<] on the tuples returned by [_sort_fs]. *)
Definition fs_ltb (a b : string * string) : bool :=
  if (fst a =? fst b)%string then String.ltb (snd a) (snd b)
  else String.ltb (fst a) (fst b).

Record noder : Type := Noder {
  hash : bool;
  verbose : bool;
  sortsize : bool;
  arc : bool
}.

Definition _sort_fs (n : node) : string * string :=
  (type n, lower (lstrip ["\"%char; "."%char] (name n))).

Definition _sort_size (n : node) : Z :=
  match size n with
  | Some (PyInt z) => if z =? 0 then 0 else z
  | Some PyNone => 0
  | None => 0
  end.

(** [sorted(items, key=self._sort, reverse=self.sortsize)], where [_sort]
    is [_sort_size] when [sortsize] is set and [_sort_fs] otherwise; [obj]
    gives the node an item refers to. *)
Definition _sort_tree_on {A : Type} (self : noder) (obj : A -> node)
    (items : list A) : list A :=
  if sortsize self
  then py_sorted Z.ltb (fun x => _sort_size (obj x)) true items
  else py_sorted fs_ltb (fun x => _sort_fs (obj x)) false items.

Definition _sort_tree (self : noder) (items : list node) : list node :=
  _sort_tree_on self (fun n => n) items.

(** ** References into a tree *)

Definition loc : Type := list nat.

Fixpoint node_at (t : node) (l : loc) : option node :=
  match l with
  | [] => Some t
  | i :: l' =>
      match nth_error (children t) i with
      | Some c => node_at c l'
      | None => None
      end
  end.

(** The object behind a reference of the tree. *)
Definition obj (t : node) (l : loc) : node :=
  match node_at t l with
  | Some n => n
  | None => t
  end.

(** [node.parent]; [None] at the root. *)
Definition parent (l : loc) : option loc :=
  match l with
  | [] => None
  | _ => Some (removelast l)
  end.

(** Attribute access on a reference that may be Python's [None]. *)
Definition deref (t : node) (o : option loc) : outcome (loc * node) :=
  match o with
  | None => Raise AttributeError
  | Some l =>
      match node_at t l with
      | Some n => Ret (l, n)
      | None => Raise AttributeError
      end
  end.

Fixpoint update_nth {A : Type} (i : nat) (f : A -> A) (l : list A) : list A :=
  match l, i with
  | [], _ => []
  | x :: l', O => f x :: l'
  | x :: l', S i' => x :: update_nth i' f l'
  end.

Fixpoint update_at (t : node) (l : loc) (f : node -> node) : node :=
  match l with
  | [] => f t
  | i :: l' => set_children t (update_nth i (fun c => update_at c l' f) (children t))
  end.

(** Creating node [c] with [parent=p]: [c] becomes the last child of [p]. *)
Definition attach_at (t : node) (p : loc) (c : node) : node * loc :=
  (update_at t p (fun pn => attach pn c),
   p ++ [List.length (children (obj t p))]).

(** [anytree.PreOrderIter] as references, starting from node [n] at [l]. *)
Fixpoint preorder_locs (n : node) (l : loc) : list loc :=
  match n with
  | Node _ _ _ _ _ _ _ _ _ _ cs =>
      l :: (fix go (cs : list node) (i : nat) : list loc :=
              match cs with
              | [] => []
              | c :: cs' => preorder_locs c (l ++ [i]) ++ go cs' (S i)
              end) cs 0%nat
  end.

(** ** anytree's [Resolver('name')] *)

Definition is_special (part : string) : bool :=
  ((part =? "") || (part =? "."))%string.

Fixpoint find_child (nm : string) (cs : list node) (i : nat) : option nat :=
  match cs with
  | [] => None
  | c :: cs' => if (name c =? nm)%string then Some i else find_child nm cs' (S i)
  end.

(** [Resolver.__start]: an absolute path restarts at the root and must name
    it in its first segment. *)
Definition resolver_start (t : node) (start : loc) (path : string)
  : outcome (option loc * list string) :=
  let parts := split sep path in
  if starts_with "/" path then
    match tl parts with
    | [] => Raise IndexError
    | p0 :: rest =>
        if (p0 =? "")%string then Raise ResolverError
        else if negb (p0 =? name t)%string then Raise ResolverError
        else Ret (Some [], rest)
    end
  else Ret (Some start, parts).

(** One segment of [Resolver.get]. *)
Definition get_step (t : node) (cur : option loc) (part : string)
  : outcome (option loc) :=
  if (part =? "..")%string then
    '(l, _) <- deref t cur ;; Ret (parent l)
  else if is_special part then Ret cur
  else
    '(l, n) <- deref t cur ;;
    match find_child part (children n) 0 with
    | Some i => Ret (Some (l ++ [i]))
    | None => Raise ChildResolverError
    end.

Fixpoint get_parts (t : node) (cur : option loc) (parts : list string)
  : outcome (option loc) :=
  match parts with
  | [] => Ret cur
  | part :: rest => cur' <- get_step t cur part ;; get_parts t cur' rest
  end.

(** [Resolver.get(node, path)] *)
Definition resolver_get (t : node) (start : loc) (path : string)
  : outcome (option loc) :=
  '(cur, parts) <- resolver_start t start path ;;
  get_parts t cur parts.

(** [Resolver.is_wildcard] *)
Definition is_wildcard (pat : string) : bool :=
  contains "?" pat || contains "*" pat.

(** [except ResolverError as exc: if not is_wildcard(pat): raise exc] *)
Definition swallow_resolver_error (wild : bool) (m : outcome (list loc))
  : outcome (list loc) :=
  match m with
  | Raise ResolverError | Raise ChildResolverError =>
      if wild then Ret [] else m
  | _ => m
  end.

(** The matcher of anytree's resolver: [*] stands for any run of characters,
    [?] for one character, anything else for itself. *)
Fixpoint wildcard_match (nm pat : string) {struct pat} : bool :=
  match pat with
  | EmptyString => match nm with EmptyString => true | _ => false end
  | String p pat' =>
      if Ascii.eqb p "*"%char then
        (fix star (s : string) : bool :=
           wildcard_match s pat' ||
           match s with
           | EmptyString => false
           | String _ s' => star s'
           end) nm
      else
        match nm with
        | EmptyString => false
        | String c nm' =>
            (Ascii.eqb p "?"%char || Ascii.eqb p c) && wildcard_match nm' pat'
        end
  end.

Section Glob.
(** [Resolver.__match name pat] *)
Variable name_match : string -> string -> bool.

(** [Resolver.__glob], with [Resolver.__find] as the inner loop over the
    children. *)
Fixpoint glob_parts (t : node) (parts : list string) (cur : option loc)
  {struct parts} : outcome (list loc) :=
  match parts with
  | [] => Raise IndexError
  | nm :: remainder =>
      if (nm =? "..")%string then
        '(l, _) <- deref t cur ;; glob_parts t remainder (parent l)
      else if is_special nm then glob_parts t remainder cur
      else
        '(l, n) <- deref t cur ;;
        matches <-
          (fix find (cs : list node) (i : nat) : outcome (list loc) :=
             match cs with
             | [] => Ret []
             | child :: cs' =>
                 here <-
                   swallow_resolver_error (is_wildcard nm)
                     (if name_match (name child) nm then
                        match remainder with
                        | [] => Ret [l ++ [i]]
                        | _ :: _ => glob_parts t remainder (Some (l ++ [i]))
                        end
                      else Ret []) ;;
                 rest <- find cs' (S i) ;;
                 Ret (here ++ rest)
             end) (children n) 0%nat ;;
        match matches with
        | [] => if is_wildcard nm then Ret [] else Raise ChildResolverError
        | _ :: _ => Ret matches
        end
  end.

(** [Resolver.glob(node, path)] *)
Definition resolver_glob (t : node) (start : loc) (path : string)
  : outcome (list loc) :=
  '(cur, parts) <- resolver_start t start path ;;
  glob_parts t parts cur.
End Glob.

(** ** Printing

    [Logger] only formats and writes text; what is kept of [_print_node] is
    which attributes it reads, since a missing one raises, and the calls of
    [utils.human]. *)

Fixpoint for_each {A : Type} (f : A -> outcome unit) (l : list A) : outcome unit :=
  match l with
  | [] => Ret tt
  | x :: l' => _ <- f x ;; for_each f l'
  end.

Definition when (b : bool) (m : outcome unit) : outcome unit :=
  if b then m else Ret tt.

Definition touch {A : Type} (o : option A) : outcome unit :=
  _ <- getattr o ;; Ret tt.

(** [utils.human(size)], from the package's [utils] module: it scales a
    number of bytes by powers of 1024 and formats it.  It returns for every
    integer; [None] cannot be compared with a number, which raises
    [TypeError]. *)
Definition human (v : pyval) : outcome unit :=
  match v with
  | PyInt _ => Ret tt
  | PyNone => Raise TypeError
  end.

(** The truth value of a size: [None] and [0] are falsy. *)
Definition truthy (v : pyval) : bool :=
  match v with
  | PyInt z => negb (z =? 0)
  | PyNone => false
  end.

(** [node.ancestors[1]], for a node at [l] below the tree root. *)
Definition _get_storage (l : loc) : outcome loc :=
  if (2 <=? List.length l)%nat then Ret (firstn 1 l) else Raise IndexError.

Definition _print_node (self : noder) (t : node) (o : option loc)
    (withpath withdepth withstorage : bool) : outcome unit :=
  '(l, n) <- deref t o ;;
  if (type n =? TYPE_TOP)%string then Ret tt
  else if (type n =? TYPE_FILE)%string then
    _ <- when withpath (touch (relpath n)) ;;
    _ <- when withstorage (_ <- _get_storage l ;; Ret tt) ;;
    _ <- touch (md5 n) ;;
    sz <- getattr (size n) ;;
    human sz
  else if (type n =? TYPE_DIR)%string then
    _ <- when withpath (touch (relpath n)) ;;
    _ <- when withstorage (_ <- _get_storage l ;; Ret tt) ;;
    sz <- getattr (size n) ;;
    when (truthy sz) (human sz)
  else if (type n =? TYPE_STORAGE)%string then
    f <- getattr (free n) ;;
    _ <- human (PyInt f) ;;
    tot <- getattr (total n) ;;
    _ <- human (PyInt tot) ;;
    touch (attr n)
  else if (type n =? TYPE_ARC)%string then
    when (arc self) (touch (archive n))
  else Ret tt.

(** The rows of [anytree.RenderTree(node, childiter=self._sort_tree)]. *)
Fixpoint render (self : noder) (n : node) (l : loc) : list loc :=
  match n with
  | Node _ _ _ _ _ _ _ _ _ _ cs =>
      l :: List.concat (map snd
             (_sort_tree_on self fst
                ((fix go (cs : list node) (i : nat) : list (node * list loc) :=
                    match cs with
                    | [] => []
                    | c :: cs' => (c, render self c (l ++ [i])) :: go cs' (S i)
                    end) cs 0%nat)))
  end.

Definition print_tree (self : noder) (t : node) (o : option loc) : outcome unit :=
  '(l, n) <- deref t o ;;
  for_each (fun r => _print_node self t (Some r) false true false) (render self n l).

(** ** Searching *)

Definition _find_name (term : string) (n : node) : bool :=
  contains (lower term) (lower (name n)).

(** [anytree.findall(root, filter_=...)] *)
Definition findall (t : node) (root : loc) (filter_ : node -> bool) : list loc :=
  List.filter (fun l => filter_ (obj t l)) (preorder_locs (obj t root) root).

(** The loop of [find_name] over [found]; its value is [paths]. *)
Fixpoint find_name_paths (self : noder) (t : node) (found : list loc)
  : outcome (list string) :=
  match found with
  | [] => Ret []
  | f :: rest =>
      if (type (obj t f) =? TYPE_STORAGE)%string then
        find_name_paths self t rest
      else
        _ <- _print_node self t (Some f) true true true ;;
        p <- getattr (relpath (obj t f)) ;;
        paths <- find_name_paths self t rest ;;
        Ret (p :: paths)
  end.

Definition find_name (self : noder) (t : node) (root : loc) (key : string)
  : outcome (list loc) :=
  let found := findall t root (_find_name key) in
  _ <- find_name_paths self t found ;;
  Ret found.

(** ** Climbing *)

Definition get_node (t : node) (top : loc) (path : string) : outcome (option loc) :=
  match resolver_get t top path with
  | Raise ChildResolverError => Ret None
  | r => r
  end.

Section Walk.
Variable name_match : string -> string -> bool.

(** The returned value is [None] for the bare [return] of the recursive
    listing. *)
Definition walk (self : noder) (t : node) (root : loc) (path : string)
    (rec : bool) : outcome (option (list loc)) :=
  match resolver_glob name_match t root path with
  | Raise ChildResolverError => Ret (Some [])
  | Raise e => Raise e
  | Ret [] => Ret (Some [])
  | Ret (f0 :: fs) =>
      if rec then
        _ <- print_tree self t (parent f0) ;; Ret None
      else
        let found := _sort_tree_on self (obj t) (f0 :: fs) in
        first <- match found with
                 | [] => Raise IndexError
                 | s0 :: _ => Ret s0
                 end ;;
        _ <- _print_node self t (parent first) false true false ;;
        _ <- for_each (fun f => _print_node self t (Some f) false true false) found ;;
        Ret (Some found)
  end.
End Walk.

(** ** Tree creation from archive member lists *)

Definition _add_entry (t : node) (nm : string) (top : loc) : outcome node :=
  let entries := split sep (rstrip sep nm) in
  let top_name := name (obj t top) in
  if (List.length entries =? 1)%nat then
    Ret (fst (attach_at t top (archive_node nm nm top_name)))
  else
    let sub := String.concat "/" (removelast entries) in
    let f := last entries "" in
    match resolver_get t top sub with
    | Ret (Some p) => Ret (fst (attach_at t p (archive_node f nm top_name)))
    | Ret None => Ret t
    | Raise ChildResolverError =>
        Ret (fst (attach_at t top (archive_node f nm top_name)))
    | Raise e => Raise e
    end.

Fixpoint list_to_tree (t : node) (parent_ : loc) (names : list string)
  : outcome node :=
  match names with
  | [] => Ret t
  | nm :: rest =>
      t' <- _add_entry t (rstrip sep nm) parent_ ;;
      list_to_tree t' parent_ rest
  end.

(** ** [os.path] on POSIX *)

Definition isabs (p : string) : bool := starts_with "/" p.

Definition path_join (a b : string) : string :=
  if isabs b then b
  else if (a =? "")%string || endswith sep a then (a ++ b)%string
  else (a ++ "/" ++ b)%string.

Definition basename (p : string) : string := last (split sep p) "".

(** The loop of [normpath]; [stack] is [new_comps], last component first. *)
Fixpoint norm_comps (rooted : bool) (comps stack : list string) : list string :=
  match comps with
  | [] => rev stack
  | comp :: rest =>
      if is_special comp then norm_comps rooted rest stack
      else if negb (comp =? "..")%string
              || (negb rooted && match stack with [] => true | _ => false end)
              || match stack with top :: _ => (top =? "..")%string | [] => false end
      then norm_comps rooted rest (comp :: stack)
      else norm_comps rooted rest (tl stack)
  end.

Definition normpath (path : string) : string :=
  if (path =? "")%string then "."
  else
    let slashes :=
      if starts_with "/" path then
        if starts_with "//" path && negb (starts_with "///" path) then "//" else "/"
      else "" in
    let comps := norm_comps (starts_with "/" path) (split sep path) [] in
    let p := (slashes ++ String.concat "/" comps)%string in
    if (p =? "")%string then "." else p.

(** What the tree builder asks of the operating system and of its
    collaborators. *)
Record os_env : Type := OsEnv {
  getcwd : string;
  path_exists : string -> bool;
  lstat_size : string -> option Z;     (* [None]: [OSError] *)
  md5sum : string -> option string;
  decomp_formats : list string;
  decomp_names : string -> list string
}.

Definition abspath (env : os_env) (p : string) : string :=
  normpath (if isabs p then p else path_join (getcwd env) p).

Fixpoint common_len (a b : list string) : nat :=
  match a, b with
  | x :: a', y :: b' => if (x =? y)%string then S (common_len a' b') else O
  | _, _ => O
  end.

Definition nonempty (s : string) : bool := negb (s =? "")%string.

Definition relpath_of (env : os_env) (path start : string) : outcome string :=
  if (path =? "")%string then Raise ValueError
  else
    let start_list := List.filter nonempty (split sep (abspath env start)) in
    let path_list := List.filter nonempty (split sep (abspath env path)) in
    let i := common_len start_list path_list in
    let rel_list := repeat ".." (List.length start_list - i) ++ skipn i path_list in
    match rel_list with
    | [] => Ret "."
    | x :: xs => Ret (fold_left path_join xs x)
    end.

(** [os.path.splitext(path)[1][1:]] *)
Definition splitext_ext (path : string) : string :=
  let rest := lstrip ["."%char] (basename path) in
  if contains "." rest then last (split "."%char rest) "" else "".

(** ** Building File and Dir nodes *)

Definition file_relpath (env : os_env) (path storagepath : string) : outcome string :=
  rel <- relpath_of env (abspath env path) storagepath ;;
  Ret (path_join (basename storagepath) rel).

Definition dir_relpath (env : os_env) (path storagepath : string) : outcome string :=
  relpath_of env (abspath env path) storagepath.

(** [file_node] returns the tree and the new node, or [None] when the file
    cannot be indexed. *)
Definition file_node (self : noder) (env : os_env) (t : node)
    (nm path : string) (parent_ : loc) (storagepath : string)
  : outcome (node * option loc) :=
  if negb (path_exists env path) then Ret (t, None)
  else
    match lstat_size env (abspath env path) with
    | None => Ret (t, None)
    | Some st_size =>
        let md5_ := if hash self then md5sum env (abspath env path) else None in
        rp <- file_relpath env path storagepath ;;
        let '(t1, n) := attach_at t parent_ (_node nm TYPE_FILE rp (PyInt st_size) md5_) in
        if arc self
           && existsb (String.eqb (splitext_ext (abspath env path))) (decomp_formats env)
        then
          t2 <- list_to_tree t1 n (decomp_names env (abspath env path)) ;;
          Ret (t2, Some n)
        else Ret (t1, Some n)
    end.

Definition dir_node (env : os_env) (t : node)
    (nm path : string) (parent_ : loc) (storagepath : string)
  : outcome (node * loc) :=
  rp <- dir_relpath env path storagepath ;;
  Ret (attach_at t parent_ (_node nm TYPE_DIR rp PyNone None)).

(** ** Reference behaviour, in the words of the specification *)

(** A path segment that is a plain name: not empty and neither of the two
    relative markers. *)
Definition is_name (s : string) : bool :=
  negb (s =? "")%string && negb (s =? ".")%string && negb (s =? "..")%string.

(** Exact resolution: walk segment by segment, at each step taking the child
    with exactly that name; no node at the first segment without one. *)
Fixpoint resolve_exact (n : node) (segs : list string) : option loc :=
  match segs with
  | [] => Some []
  | s :: rest =>
      match find_child s (children n) 0 with
      | None => None
      | Some i =>
          match nth_error (children n) i with
          | Some c => option_map (cons i) (resolve_exact c rest)
          | None => None
          end
      end
  end.

(** The names met below [n] along [l]. *)
Fixpoint names_along (n : node) (l : loc) : option (list string) :=
  match l with
  | [] => Some []
  | i :: l' =>
      match nth_error (children n) i with
      | Some c => option_map (cons (name c)) (names_along c l')
      | None => None
      end
  end.

Fixpoint indexed {A : Type} (i : nat) (l : list A) : list (nat * A) :=
  match l with
  | [] => []
  | x :: l' => (i, x) :: indexed (S i) l'
  end.

(** Glob resolution: every chain of children whose names match the pattern
    segments one by one, in tree order. *)
Fixpoint all_matches (name_match : string -> string -> bool)
    (segs : list string) (n : node) : list loc :=
  match segs with
  | [] => [[]]
  | s :: rest =>
      flat_map (fun ic =>
                  if name_match (name (snd ic)) s
                  then map (cons (fst ic)) (all_matches name_match rest (snd ic))
                  else [])
               (indexed 0 (children n))
  end.

(** No two siblings share a name, anywhere in the tree. *)
Definition uniq_names (t : node) : Prop :=
  Forall (fun d => NoDup (map name (children d))) (preorder t).

Definition is_some {A : Type} (o : option A) : bool :=
  match o with
  | Some _ => true
  | None => false
  end.

(** The node carries the attributes its constructor gives a node of its
    type; the size of a File is the integer [file_node] takes from
    [os.lstat]. *)
Definition has_own_attributes (n : node) : bool :=
  if (type n =? TYPE_FILE)%string then
    is_some (relpath n) && is_some (md5 n) && has_int_size n
  else if (type n =? TYPE_DIR)%string then
    is_some (relpath n) && is_some (md5 n) && is_some (size n)
  else if (type n =? TYPE_STORAGE)%string then
    is_some (free n) && is_some (total n) && is_some (attr n) && is_some (ts n)
  else if (type n =? TYPE_ARC)%string then
    is_some (relpath n) && is_some (md5 n) && is_some (size n)
    && is_some (archive n)
  else true.

Definition well_attributed (t : node) : Prop :=
  Forall (fun d => has_own_attributes d = true) (preorder t).

(** *** More of the example catalog *)

(** [Noder()] with its default arguments. *)
Definition default_noder : noder := Noder true false false false.

(** The third scenario: an archive file directly under the storage. *)
Definition photos_zip : node :=
  _node "photos.zip" TYPE_FILE "usb1/photos.zip" (PyInt 4096) None.
Definition catalog_zip : node :=
  attach new_top_node
         (attach (storage_node "usb1" 2000 5000 None 1500000000) photos_zip).
Definition photos_zip_loc : loc := [0%nat; 0%nat].

(** ** The resolver's loop, and what a path asks for *)

Section GlobFind.
Variable name_match : string -> string -> bool.

(** [Resolver.__find] over the children [cs], the first of which is child
    number [i] of the node at [l]. *)
Fixpoint glob_find (t : node) (nm : string) (remainder : list string)
    (l : loc) (cs : list node) (i : nat) : outcome (list loc) :=
  match cs with
  | [] => Ret []
  | child :: cs' =>
      here <-
        swallow_resolver_error (is_wildcard nm)
          (if name_match (name child) nm then
             match remainder with
             | [] => Ret [l ++ [i]]
             | _ :: _ => glob_parts name_match t remainder (Some (l ++ [i]))
             end
           else Ret []) ;;
      rest <- glob_find t nm remainder l cs' (S i) ;;
      Ret (here ++ rest)
  end.

(** The matches of [s :: rest] that pass through one numbered child. *)
Definition child_matches (s : string) (rest : list string)
    (ic : nat * node) : list loc :=
  if name_match (name (snd ic)) s
  then map (cons (fst ic)) (all_matches name_match rest (snd ic))
  else [].
End GlobFind.

(** The node a glob path starts from and its pattern segments: either the
    path is relative and all its segments are names or patterns, or it is
    absolute, names the tree root first and goes on with at least one such
    segment. *)
Definition glob_segments (t : node) (root : loc) (path : string)
  : option (loc * list string) :=
  if forallb is_name (split sep path) then Some (root, split sep path)
  else
    match split sep path with
    | s0 :: p0 :: seg :: segs =>
        if (s0 =? "")%string && (p0 =? name t)%string && negb (p0 =? "")%string
           && forallb is_name (seg :: segs)
        then Some ([], seg :: segs)
        else None
    | _ => None
    end.

(** ** Paths below a storage root *)

Fixpoint no_sep (s : string) : bool :=
  match s with
  | EmptyString => true
  | String a s' => negb (Ascii.eqb a sep) && no_sep s'
  end.

(** A directory entry name: a name without the separator. *)
Definition seg_ok (s : string) : bool := is_name s && no_sep s.

(** The absolute, normalised path with the given components. *)
Definition abs_path (segs : list string) : string :=
  String sep (String.concat "/" segs).

(** A machine on which every path exists and every file has 1000 bytes. *)
Definition example_env : os_env :=
  OsEnv "/home/user" (fun _ => true) (fun _ => Some 1000) (fun _ => None)
        ["zip"] (fun _ => []).

Definition usb1_empty : node := storage_node "usb1" 2000 5000 None 1500000000.

(** Two directories before aggregation: both sort keys by size are 0. *)
Definition dir_a : node := _node "a" TYPE_DIR "a" PyNone None.
Definition dir_b : node := _node "b" TYPE_DIR "b" PyNone None.

(** ** Relations used to state the results *)

(** What aggregating a built File or Dir establishes. *)
Definition aggregated (c c' : node) : Prop :=
  type c' = type c /\ file_sizes c' = file_sizes c /\
  Forall dir_size_ok (preorder c').

(** What a call of the resolver may answer for the matches [M] below [l]:
    some of them, and all of them when sibling names are distinct; or the
    child error, with no match at all when sibling names are distinct. *)
Definition glob_answer (l : loc) (M : list loc) (uniq : Prop)
    (r : outcome (list loc)) : Prop :=
  (exists X, r = Ret X /\ incl X (map (app l) M)
             /\ (uniq -> X = map (app l) M))
  \/ (r = Raise ChildResolverError /\ (uniq -> M = [])).

(** The attributes other than the children agree. *)
Definition same_attributes (d d' : node) : Prop :=
  name d' = name d /\ type d' = type d /\ relpath d' = relpath d /\
  size d' = size d /\ md5 d' = md5 d.

(** ** The rest of [Noder] *)

(** [set_hashing] *)
Definition set_hashing (self : noder) (val : bool) : noder :=
  Noder val (verbose self) (sortsize self) (arc self).

(** [get_storage_names]: the names of the children of [top], in order. *)
Definition get_storage_names (top : node) : list string :=
  map name (children top).

(** [', '.join(attr)] *)
Definition join_tags (tags : list string) : string := String.concat ", " tags.

(** [clean_storage_attr]: [None] and the empty list are both falsy. *)
Definition clean_storage_attr (attr_ : option (list string)) : string :=
  match attr_ with
  | None | Some [] => ""
  | Some tags => join_tags tags
  end.

(** [get_meta_node]: the first child of [top] whose type is ['meta'], as a
    reference below [top], or [None]. *)
Fixpoint first_of_type (ty : string) (cs : list node) (i : nat) : option nat :=
  match cs with
  | [] => None
  | c :: cs' =>
      if (type c =? ty)%string then Some i else first_of_type ty cs' (S i)
  end.

Definition get_meta_node (t : node) (top : loc) : option loc :=
  match first_of_type TYPE_META (children (obj t top)) 0 with
  | Some i => Some (top ++ [i])
  | None => None
  end.

(** *** The meta node

    The [attr] of a meta node is a dictionary; it is kept as the list of its
    items in insertion order. *)

Inductive metaval : Type :=
| MInt (z : Z)
| MStr (s : string).

Definition dict : Type := list (string * metaval).

(** [d[k]], [None] for a missing key. *)
Fixpoint dict_get (k : string) (d : dict) : option metaval :=
  match d with
  | [] => None
  | (k', v) :: d' => if (k' =? k)%string then Some v else dict_get k d'
  end.

(** [d[k] = v]: an existing key keeps its place, a new one goes last. *)
Fixpoint dict_set (k : string) (v : metaval) (d : dict) : dict :=
  match d with
  | [] => [(k, v)]
  | (k', v') :: d' =>
      if (k' =? k)%string then (k, v) :: d' else (k', v') :: dict_set k v d'
  end.

(** A meta node: its name, its type and its [attr] attribute, which is
    missing on a node that was not made by [update_metanode]. *)
Record meta_node : Type := MetaNode {
  meta_name : string;
  meta_type : string;
  meta_attr : option dict
}.

(** [update_metanode meta]; [epoch] is [int(time.time())] and [version] the
    package's [__version__]. *)
Definition update_metanode (epoch : Z) (version : string)
    (meta : option meta_node) : outcome meta_node :=
  let meta :=
    match meta with
    | None =>
        MetaNode METANAME TYPE_META
          (Some (dict_set "created_version" (MStr version)
                   (dict_set "created" (MInt epoch) [])))
    | Some m => m
    end in
  d <- getattr (meta_attr meta) ;;
  Ret (MetaNode (meta_name meta) (meta_type meta)
         (Some (dict_set "access_version" (MStr version)
                  (dict_set "access" (MInt epoch) d)))).

(** *** Helpers for the statements *)

(** The node with the size fields of all nodes but the Files cleared. *)
Fixpoint unsized (n : node) : node :=
  match n with
  | Node nm ty rp sz m a f t at_ ts_ cs =>
      Node nm ty rp (if (ty =? TYPE_FILE)%string then sz else None)
           m a f t at_ ts_ (map unsized cs)
  end.

(** The children part of [render], for children numbered from [i]. *)
Fixpoint render_children (self : noder) (l : loc) (cs : list node) (i : nat)
  : list (node * list loc) :=
  match cs with
  | [] => []
  | c :: cs' => (c, render self c (l ++ [i])) :: render_children self l cs' (S i)
  end.

(** The children part of [preorder_locs], for children numbered from [i]. *)
Fixpoint preorder_children (l : loc) (cs : list node) (i : nat) : list loc :=
  match cs with
  | [] => []
  | c :: cs' => preorder_locs c (l ++ [i]) ++ preorder_children l cs' (S i)
  end.

(** A catalog as the tree builder leaves it: a Top node holding built
    Storages, every node with the attributes of its type. *)
Definition catalog_ok (t : node) : Prop :=
  type t = TYPE_TOP /\
  Forall (fun s => type s = TYPE_STORAGE /\ built s = true) (children t) /\
  well_attributed t.

(** The first scenario's catalog with a meta node attached after the
    storage. *)
Definition catalog_meta : node :=
  attach catalog
         (Node METANAME TYPE_META None None None None None None None None []).

(** * Properties *)

Arguments Ascii.eqb : simpl never.
Arguments String.eqb : simpl never.

(** ** The aggregator *)

Lemma rec_size_unfold (n : node) :
  rec_size n =
  if (type n =? TYPE_FILE)%string then
    v <- getattr (size n) ;; Ret (n, v)
  else
    '(cs', total_) <- rec_children (type n) (children n) 0 ;;
    Ret (set_size (set_children n cs') (PyInt total_), PyInt total_).
Proof.
  destruct n as [nm ty rp sz m a f t at_ ts_ cs]. simpl.
  destruct (ty =? TYPE_FILE)%string; [reflexivity|].
  f_equal.
  generalize 0. induction cs as [|i rest IH]; intros acc; [reflexivity|].
  simpl. destruct (ty =? TYPE_DIR)%string.
  - destruct (rec_size i) as [[i' [|z]]|e]; simpl; try reflexivity.
    rewrite IH. reflexivity.
  - destruct (ty =? TYPE_STORAGE)%string.
    + destruct (rec_size i) as [[i' v]|e]; simpl; try reflexivity.
      rewrite IH. reflexivity.
    + rewrite IH. reflexivity.
Qed.


Lemma preorder_unfold (n : node) :
  preorder n = n :: flat_map preorder (children n).
Proof. destruct n; reflexivity. Qed.

Lemma file_sizes_unfold (n : node) :
  file_sizes n =
  (if (type n =? TYPE_FILE)%string then stored_size n else 0)
  + zsum (map file_sizes (children n)).
Proof. destruct n; reflexivity. Qed.

Lemma arc_tree_unfold (n : node) :
  arc_tree n = (type n =? TYPE_ARC)%string && forallb arc_tree (children n).
Proof. destruct n; reflexivity. Qed.

Lemma built_unfold (n : node) :
  built n =
  if (type n =? TYPE_FILE)%string then
    has_int_size n && forallb arc_tree (children n)
  else if ((type n =? TYPE_DIR) || (type n =? TYPE_STORAGE))%string then
    forallb (fun c => (is_type TYPE_FILE c || is_type TYPE_DIR c) && built c)
            (children n)
  else false.
Proof. destruct n; reflexivity. Qed.

Ltac string_cases :=
  repeat match goal with
  | |- context [(?a =? ?b)%string] => destruct (String.eqb_spec a b)
  | H : context [(?a =? ?b)%string] |- _ => destruct (String.eqb_spec a b)
  end.

Ltac type_clash :=
  unfold TYPE_TOP, TYPE_FILE, TYPE_DIR, TYPE_ARC, TYPE_STORAGE, TYPE_META in *;
  congruence.

(** A node that is neither a Dir nor a Storage leaves its children alone. *)
Lemma rec_children_other (ty : string) (l : list node) (acc : Z) :
  ty <> TYPE_DIR -> ty <> TYPE_STORAGE ->
  rec_children ty l acc = Ret (l, acc).
Proof.
  intros Hd Hs. induction l as [|i rest IH]; simpl; [reflexivity|].
  string_cases; try contradiction. rewrite IH. reflexivity.
Qed.

(** Under a Storage every child is aggregated and the results are dropped. *)
Lemma rec_children_storage (l : list node) :
  forall acc l' acc',
    rec_children TYPE_STORAGE l acc = Ret (l', acc') ->
    acc' = acc /\
    Forall2 (fun c c' => exists w, rec_size c = Ret (c', w)) l l'.
Proof.
  induction l as [|i rest IH]; simpl; intros acc l' acc' H.
  - inversion H; subst. split; constructor.
  - destruct (rec_size i) as [[i' w]|e] eqn:Ei; simpl in H; [|discriminate].
    destruct (rec_children TYPE_STORAGE rest acc) as [[rest' acc1]|e] eqn:Er;
      simpl in H; [|discriminate].
    inversion H; subst. destruct (IH _ _ _ Er) as [-> HF].
    split; [reflexivity|]. constructor; [exists w; assumption|assumption].
Qed.

Lemma rec_children_idem (ty : string) (l : list node) :
  Forall (fun c => forall c' v, rec_size c = Ret (c', v) -> rec_size c' = Ret (c', v)) l ->
  forall acc l' acc',
    rec_children ty l acc = Ret (l', acc') ->
    rec_children ty l' acc = Ret (l', acc').
Proof.
  induction 1 as [|i rest Hi _ IH]; simpl; intros acc l' acc' H.
  - inversion H; subst. reflexivity.
  - destruct (ty =? TYPE_DIR)%string eqn:Ed;
      [|destruct (ty =? TYPE_STORAGE)%string eqn:Es].
    + destruct (rec_size i) as [[i' [|z]]|e] eqn:Ei; simpl in H; try discriminate.
      destruct (rec_children ty rest (acc + z)) as [[rest' acc1]|e] eqn:Er;
        simpl in H; [|discriminate].
      inversion H; subst. simpl. rewrite Ed, (Hi _ _ eq_refl). simpl.
      rewrite (IH _ _ _ Er). reflexivity.
    + destruct (rec_size i) as [[i' w]|e] eqn:Ei; simpl in H; try discriminate.
      destruct (rec_children ty rest acc) as [[rest' acc1]|e] eqn:Er;
        simpl in H; [|discriminate].
      inversion H; subst. simpl. rewrite Ed, Es, (Hi _ _ eq_refl). simpl.
      rewrite (IH _ _ _ Er). reflexivity.
    + destruct (rec_children ty rest acc) as [[rest' acc1]|e] eqn:Er;
        simpl in H; [|discriminate].
      inversion H; subst. simpl. rewrite Ed, Es.
      rewrite (IH _ _ _ Er). reflexivity.
Qed.

Lemma arc_tree_no_files (n : node) : arc_tree n = true -> file_sizes n = 0.
Proof.
  induction n as [n IH] using node_ind'. rewrite arc_tree_unfold, file_sizes_unfold.
  intros H. apply andb_true_iff in H. destruct H as [Ht Hc].
  apply String.eqb_eq in Ht. rewrite Ht.
  replace (TYPE_ARC =? TYPE_FILE)%string with false by reflexivity.
  simpl. induction IH as [|c cs Hc' _ IHcs]; simpl in *; [reflexivity|].
  apply andb_true_iff in Hc. destruct Hc as [Hc1 Hc2].
  rewrite (Hc' Hc1), (IHcs Hc2). reflexivity.
Qed.

Lemma arc_tree_preorder (n : node) :
  arc_tree n = true -> Forall (fun d => type d = TYPE_ARC) (preorder n).
Proof.
  induction n as [n IH] using node_ind'. rewrite arc_tree_unfold, preorder_unfold.
  intros H. apply andb_true_iff in H. destruct H as [Ht Hc].
  apply String.eqb_eq in Ht. constructor; [assumption|].
  induction IH as [|c cs Hc' _ IHcs]; simpl in *; [constructor|].
  apply andb_true_iff in Hc. destruct Hc as [Hc1 Hc2].
  apply Forall_app. split; auto.
Qed.

Lemma rec_children_built (ty : string) (l : list node) :
  ty = TYPE_DIR \/ ty = TYPE_STORAGE ->
  Forall (fun c => exists c', rec_size c = Ret (c', PyInt (file_sizes c))
                              /\ aggregated c c') l ->
  forall acc, exists l' acc',
    rec_children ty l acc = Ret (l', acc') /\
    (ty = TYPE_DIR -> acc' = acc + zsum (map file_sizes l)) /\
    (ty = TYPE_STORAGE -> acc' = acc) /\
    Forall2 aggregated l l'.
Proof.
  intros Hty. induction 1 as [|i rest (i' & Ei & Hi) _ IH]; intros acc.
  - exists [], acc. simpl. repeat split; try constructor; intros; lia.
  - simpl. destruct Hty as [-> | ->].
    + replace (TYPE_DIR =? TYPE_DIR)%string with true by reflexivity.
      rewrite Ei. simpl.
      destruct (IH (acc + file_sizes i)) as (rest' & acc' & Er & Hd & _ & HF).
      rewrite Er. simpl. exists (i' :: rest'), acc'.
      repeat split; [intros _; rewrite Hd by reflexivity; lia
                    |intros Hx; type_clash|constructor; assumption].
    + replace (TYPE_STORAGE =? TYPE_DIR)%string with false by reflexivity.
      replace (TYPE_STORAGE =? TYPE_STORAGE)%string with true by reflexivity.
      rewrite Ei. simpl.
      destruct (IH acc) as (rest' & acc' & Er & _ & Hs & HF).
      rewrite Er. simpl. exists (i' :: rest'), acc'.
      repeat split; [intros Hx; type_clash|assumption|constructor; assumption].
Qed.

Lemma aggregated_sum (l l' : list node) :
  Forall2 aggregated l l' ->
  zsum (map file_sizes l') = zsum (map file_sizes l).
Proof.
  induction 1 as [|c c' l l' (_ & Hf & _) _ IH]; simpl; [reflexivity|].
  rewrite Hf, IH. reflexivity.
Qed.

Lemma aggregated_preorder (l l' : list node) :
  Forall2 aggregated l l' ->
  Forall dir_size_ok (flat_map preorder l').
Proof.
  induction 1 as [|c c' l l' (_ & _ & Hp) _ IH]; simpl; [constructor|].
  apply Forall_app. split; assumption.
Qed.

Lemma rec_size_built (n : node) :
  built n = true ->
  exists n',
    rec_size n =
      Ret (n', PyInt (if is_type TYPE_STORAGE n then 0 else file_sizes n))
    /\ aggregated n n'.
Proof.
  induction n as [n IH] using node_ind'. rewrite built_unfold. intros Hb.
  rewrite rec_size_unfold. unfold is_type.
  destruct (String.eqb_spec (type n) TYPE_FILE) as [Hf|Hf].
  - (* a File: its own stat size, nothing below but archive members *)
    apply andb_true_iff in Hb. destruct Hb as [Hs Ha].
    unfold has_int_size in Hs.
    destruct (size n) as [[|z]|] eqn:Esz; try discriminate.
    assert (Hz : zsum (map file_sizes (children n)) = 0).
    { clear -Ha. induction (children n) as [|c cs IHc]; simpl in *; [reflexivity|].
      apply andb_true_iff in Ha. destruct Ha as [H1 H2].
      rewrite (arc_tree_no_files _ H1), (IHc H2). reflexivity. }
    assert (Hfs : file_sizes n = z).
    { rewrite file_sizes_unfold, Hz. rewrite Hf.
      replace (TYPE_FILE =? TYPE_FILE)%string with true by reflexivity.
      unfold stored_size. rewrite Esz. lia. }
    exists n. simpl. rewrite Hf.
    replace (TYPE_FILE =? TYPE_STORAGE)%string with false by reflexivity.
    rewrite Hfs. split; [reflexivity|].
    repeat split. rewrite preorder_unfold. constructor.
    + intros Hd. type_clash.
    + clear -Ha. induction (children n) as [|c cs IHc]; simpl in *; [constructor|].
      apply andb_true_iff in Ha. destruct Ha as [H1 H2].
      apply Forall_app. split; [|auto].
      eapply Forall_impl; [|apply arc_tree_preorder; exact H1].
      intros d Hd Hd'. type_clash.
  - (* a Dir or a Storage *)
    destruct ((type n =? TYPE_DIR) || (type n =? TYPE_STORAGE))%string eqn:Hty;
      [|discriminate].
    assert (Hty' : type n = TYPE_DIR \/ type n = TYPE_STORAGE).
    { apply orb_true_iff in Hty.
      destruct Hty as [H|H]; apply String.eqb_eq in H; auto. }
    assert (Hkids : Forall (fun c => exists c',
                rec_size c = Ret (c', PyInt (file_sizes c)) /\ aggregated c c')
              (children n)).
    { clear -IH Hb. induction IH as [|c cs Hc _ IHcs]; simpl in *; [constructor|].
      apply andb_true_iff in Hb. destruct Hb as [H1 H2].
      apply andb_true_iff in H1. destruct H1 as [Hk Hbc].
      constructor; [|auto].
      destruct (Hc Hbc) as (c' & Ec & Hagg). exists c'. split; [|assumption].
      rewrite Ec. unfold is_type in *.
      destruct (String.eqb_spec (type c) TYPE_STORAGE) as [Hs|Hs]; [|reflexivity].
      rewrite Hs in Hk. discriminate. }
    destruct (rec_children_built (type n) (children n) Hty' Hkids 0)
      as (cs' & acc' & Er & Hd & Hs & HF).
    rewrite Er. simpl.
    exists (set_size (set_children n cs') (PyInt acc')). split.
    + f_equal. f_equal. f_equal.
      destruct Hty' as [Hy|Hy].
      * rewrite Hy.
        replace (TYPE_DIR =? TYPE_STORAGE)%string with false by reflexivity.
        rewrite (Hd Hy), file_sizes_unfold.
        destruct (String.eqb_spec (type n) TYPE_FILE); [contradiction|]. lia.
      * rewrite Hy.
        replace (TYPE_STORAGE =? TYPE_STORAGE)%string with true by reflexivity.
        rewrite (Hs Hy). reflexivity.
    + repeat split.
      * rewrite !file_sizes_unfold. simpl.
        destruct (String.eqb_spec (type n) TYPE_FILE); [contradiction|].
        rewrite (aggregated_sum _ _ HF). reflexivity.
      * rewrite preorder_unfold. simpl. constructor.
        -- unfold dir_size_ok, descendant_file_sum. simpl. intros Hy.
           rewrite (Hd Hy), (aggregated_sum _ _ HF). reflexivity.
        -- apply (aggregated_preorder _ _ HF).
Qed.

Example rec_size_usb1 : rec_size usb1 = Ret (usb1_sized, PyInt 0).
Proof. reflexivity. Qed.

(** C1, as stated, fails: aggregating the Storage "usb1" of the first
    scenario, whose size attribute is not set beforehand, leaves it with
    size 0 written into it. *)
Lemma storage_size_is_written :
  type usb1 = TYPE_STORAGE /\ size usb1 = None /\
  rec_size usb1 = Ret (usb1_sized, PyInt 0) /\
  size usb1_sized = Some (PyInt 0).
Proof. repeat split. Qed.

(** C1, amended: on a Storage node [rec_size] aggregates every child (the
    child's own call result is what ends up in the tree), does not add the
    children's totals up, writes 0 into the Storage's size field, changes no
    other attribute of the Storage, and returns 0. *)
Theorem rec_size_storage (n n' : node) (v : pyval) :
  type n = TYPE_STORAGE ->
  rec_size n = Ret (n', v) ->
  v = PyInt 0 /\
  size n' = Some (PyInt 0) /\
  n' = set_size (set_children n (children n')) (PyInt 0) /\
  Forall2 (fun c c' => exists w, rec_size c = Ret (c', w))
          (children n) (children n').
Proof.
  intros Hty H. rewrite rec_size_unfold, Hty in H.
  replace (TYPE_STORAGE =? TYPE_FILE)%string with false in H by reflexivity.
  destruct (rec_children TYPE_STORAGE (children n) 0) as [[cs' acc]|e] eqn:Er;
    simpl in H; [|discriminate].
  destruct (rec_children_storage _ _ _ _ Er) as [-> HF].
  inversion H; subst. simpl. auto.
Qed.

Lemma rec_size_storage_witness :
  PyInt 0 = PyInt 0 /\
  size usb1_sized = Some (PyInt 0) /\
  usb1_sized = set_size (set_children usb1 (children usb1_sized)) (PyInt 0) /\
  Forall2 (fun c c' => exists w, rec_size c = Ret (c', w))
          (children usb1) (children usb1_sized).
Proof. apply (rec_size_storage usb1 usb1_sized (PyInt 0)); reflexivity. Defined.

Lemma unsized_unfold (n : node) :
  unsized n =
  Node (name n) (type n) (relpath n)
       (if (type n =? TYPE_FILE)%string then size n else None)
       (md5 n) (archive n) (free n) (total n) (attr n) (ts n)
       (map unsized (children n)).
Proof. destruct n; reflexivity. Qed.

Lemma rec_children_unsized (ty : string) (l : list node) :
  Forall (fun c => forall c' v, rec_size c = Ret (c', v) -> unsized c' = unsized c) l ->
  forall acc l' acc',
    rec_children ty l acc = Ret (l', acc') ->
    map unsized l' = map unsized l.
Proof.
  induction 1 as [|i rest Hi _ IH]; simpl; intros acc l' acc' H.
  - inversion H; subst. reflexivity.
  - destruct (ty =? TYPE_DIR)%string;
      [|destruct (ty =? TYPE_STORAGE)%string].
    + destruct (rec_size i) as [[i' [|z]]|e]; simpl in H; try discriminate.
      destruct (rec_children ty rest (acc + z)) as [[rest' acc1]|e] eqn:Er;
        simpl in H; [|discriminate].
      inversion H; subst. simpl.
      rewrite (Hi _ _ eq_refl), (IH _ _ _ Er). reflexivity.
    + destruct (rec_size i) as [[i' w]|e]; simpl in H; try discriminate.
      destruct (rec_children ty rest acc) as [[rest' acc1]|e] eqn:Er;
        simpl in H; [|discriminate].
      inversion H; subst. simpl.
      rewrite (Hi _ _ eq_refl), (IH _ _ _ Er). reflexivity.
    + destruct (rec_children ty rest acc) as [[rest' acc1]|e] eqn:Er;
        simpl in H; [|discriminate].
      inversion H; subst. simpl. rewrite (IH _ _ _ Er). reflexivity.
Qed.

(** What [rec_size] assigns is [node.size], and never on a File. *)
Lemma rec_size_unsized (n n' : node) (v : pyval) :
  rec_size n = Ret (n', v) -> unsized n' = unsized n.
Proof.
  revert n' v. induction n as [n IH] using node_ind'. intros n' v H.
  rewrite rec_size_unfold in H.
  destruct (type n =? TYPE_FILE)%string eqn:Ef.
  - destruct (size n); simpl in H; [|discriminate].
    inversion H; subst. reflexivity.
  - destruct (rec_children (type n) (children n) 0) as [[cs' acc]|e] eqn:Er;
      simpl in H; [|discriminate].
    inversion H; subst. rewrite (unsized_unfold n), unsized_unfold. simpl.
    rewrite Ef, (rec_children_unsized _ _ IH _ _ _ Er). reflexivity.
Qed.

(** C4: after [rec_size] on a built subtree rooted at a Storage or a Dir,
    the call returns; the resulting subtree is the one given, with the same
    nodes, names and types and the same File sizes, changed in the size
    fields of the other nodes only; and every Dir of it carries as size the
    sum of the stored sizes of the File nodes below it. *)
Theorem rec_size_dir_sizes (n : node) :
  built n = true ->
  type n = TYPE_STORAGE \/ type n = TYPE_DIR ->
  exists n' v,
    rec_size n = Ret (n', v) /\
    unsized n' = unsized n /\
    file_sizes n' = file_sizes n /\
    Forall dir_size_ok (preorder n').
Proof.
  intros Hb _. destruct (rec_size_built n Hb) as (n' & E & _ & Hf & Hp).
  exists n'. eexists. split; [exact E|].
  split; [exact (rec_size_unsized _ _ _ E)|]. split; assumption.
Qed.

Lemma rec_size_dir_sizes_witness :
  exists n' v,
    rec_size usb1 = Ret (n', v) /\
    unsized n' = unsized usb1 /\
    file_sizes n' = file_sizes usb1 /\
    Forall dir_size_ok (preorder n').
Proof. apply (rec_size_dir_sizes usb1); [reflexivity | left; reflexivity]. Defined.

(** What each kind of child hands to its parent Dir: a built File its stored
    size, a built Dir the sum below it, an archive member zero. *)
Lemma rec_size_contribution (n : node) :
  built n = true -> type n <> TYPE_STORAGE ->
  exists n', rec_size n = Ret (n', PyInt (file_sizes n)).
Proof.
  intros Hb Hs. destruct (rec_size_built n Hb) as (n' & E & _).
  unfold is_type in E. destruct (String.eqb_spec (type n) TYPE_STORAGE);
    [contradiction|]. eauto.
Qed.

Lemma rec_size_arc (n : node) :
  type n = TYPE_ARC -> rec_size n = Ret (set_size n (PyInt 0), PyInt 0).
Proof.
  intros Hty. rewrite rec_size_unfold, Hty.
  replace (TYPE_ARC =? TYPE_FILE)%string with false by reflexivity.
  rewrite rec_children_other by (intro; type_clash). simpl.
  destruct n; reflexivity.
Qed.

(** C6: a second run of [rec_size] on the tree left by a first run returns
    the same value and leaves every node as it was. *)
Theorem rec_size_idempotent (n n' : node) (v : pyval) :
  rec_size n = Ret (n', v) -> rec_size n' = Ret (n', v).
Proof.
  revert n' v. induction n as [n IH] using node_ind'. intros n' v H.
  rewrite rec_size_unfold in H.
  destruct (type n =? TYPE_FILE)%string eqn:Ef.
  - destruct (size n) as [w|] eqn:Es; simpl in H; [|discriminate].
    inversion H; subst. rewrite rec_size_unfold, Ef, Es. reflexivity.
  - destruct (rec_children (type n) (children n) 0) as [[cs' acc]|e] eqn:Er;
      simpl in H; [|discriminate].
    inversion H; subst. rewrite rec_size_unfold. simpl. rewrite Ef.
    rewrite (rec_children_idem _ _ IH _ _ _ Er). reflexivity.
Qed.

Lemma rec_size_idempotent_witness :
  rec_size usb1_sized = Ret (usb1_sized, PyInt 0).
Proof. apply (rec_size_idempotent usb1). reflexivity. Defined.

(** C10: called on a Top node, [rec_size] aggregates none of the children:
    they are all left as they were, so no Dir below receives a size; the Top
    node's own size becomes 0 and 0 is returned. *)
Theorem rec_size_top (n : node) :
  type n = TYPE_TOP ->
  exists n',
    rec_size n = Ret (n', PyInt 0) /\
    size n' = Some (PyInt 0) /\
    children n' = children n /\
    n' = set_size n (PyInt 0).
Proof.
  intros Hty. exists (set_size n (PyInt 0)).
  rewrite rec_size_unfold, Hty.
  replace (TYPE_TOP =? TYPE_FILE)%string with false by reflexivity.
  rewrite rec_children_other by (intro; type_clash). simpl.
  repeat split.
Qed.

Lemma rec_size_top_witness :
  exists n',
    rec_size catalog = Ret (n', PyInt 0) /\
    size n' = Some (PyInt 0) /\
    children n' = children catalog /\
    n' = set_size catalog (PyInt 0).
Proof. apply (rec_size_top catalog). reflexivity. Defined.

(** ** The sorter *)

Section StableSort.
Context {A K : Type}.
Variable ltb : K -> K -> bool.
Variable key : A -> K.

Lemma insert_stable_perm (x : A) (s : list A) :
  Permutation (insert_stable ltb key x s) (x :: s).
Proof.
  induction s as [|y s IH]; simpl; [reflexivity|].
  destruct (ltb (key y) (key x)); [|reflexivity].
  rewrite IH. apply perm_swap.
Qed.

Lemma stable_sort_perm (l : list A) : Permutation (stable_sort ltb key l) l.
Proof.
  induction l as [|x l IH]; simpl; [reflexivity|].
  rewrite insert_stable_perm. constructor. exact IH.
Qed.

Lemma py_sorted_perm (reverse : bool) (l : list A) :
  Permutation (py_sorted ltb key reverse l) l.
Proof.
  unfold py_sorted. destruct reverse; [|apply stable_sort_perm].
  rewrite <- Permutation_rev, stable_sort_perm, <- Permutation_rev.
  reflexivity.
Qed.

(** *** Stability: the items of one key keep their relative order *)

Variable keq : K -> K -> bool.
Hypothesis keq_spec : forall a b, keq a b = true <-> a = b.
Hypothesis ltb_irrefl : forall a, ltb a a = false.

Lemma insert_stable_filter (k : K) (x : A) (s : list A) :
  filter (fun y => keq (key y) k) (insert_stable ltb key x s) =
  filter (fun y => keq (key y) k) (x :: s).
Proof.
  induction s as [|y s IH]; [reflexivity|].
  simpl in IH |- *. destruct (ltb (key y) (key x)) eqn:Hlt; [|reflexivity].
  simpl. rewrite IH.
  destruct (keq (key x) k) eqn:Hx, (keq (key y) k) eqn:Hy; try reflexivity.
  apply keq_spec in Hx, Hy. rewrite Hx, Hy, ltb_irrefl in Hlt. discriminate.
Qed.

Lemma stable_sort_filter (k : K) (l : list A) :
  filter (fun y => keq (key y) k) (stable_sort ltb key l) =
  filter (fun y => keq (key y) k) l.
Proof.
  induction l as [|x l IH]; [reflexivity|].
  simpl stable_sort. rewrite insert_stable_filter. simpl. rewrite IH.
  reflexivity.
Qed.

Lemma filter_rev (p : A -> bool) (l : list A) :
  filter p (rev l) = rev (filter p l).
Proof.
  induction l as [|x l IH]; [reflexivity|].
  simpl. rewrite filter_app, IH. simpl.
  destruct (p x); simpl; [reflexivity|]. apply app_nil_r.
Qed.

Lemma py_sorted_stable (reverse : bool) (k : K) (l : list A) :
  filter (fun y => keq (key y) k) (py_sorted ltb key reverse l) =
  filter (fun y => keq (key y) k) l.
Proof.
  unfold py_sorted. destruct reverse; [|apply stable_sort_filter].
  rewrite filter_rev, stable_sort_filter, filter_rev. apply rev_involutive.
Qed.

(** *** Order: no item is followed by one of a smaller key *)

Hypothesis ltb_trans :
  forall a b c, ltb a b = true -> ltb b c = true -> ltb a c = true.
Hypothesis ltb_total :
  forall a b, ltb a b = false -> ltb b a = false -> a = b.

Lemma key_le_trans (x y z : A) :
key_le ltb key x y -> key_le ltb key y z -> key_le ltb key x z.
Proof.
  unfold key_le. intros Hxy Hyz.
  destruct (ltb (key z) (key x)) eqn:Hzx; [|reflexivity].
  destruct (ltb (key x) (key y)) eqn:Hlt.
  - rewrite (ltb_trans _ _ _ Hzx Hlt) in Hyz. discriminate.
  - rewrite (ltb_total _ _ Hlt Hxy) in Hzx. congruence.
Qed.

Lemma ltb_asym (a b : K) : ltb a b = true -> ltb b a = false.
Proof.
  intros H. destruct (ltb b a) eqn:H'; [|reflexivity].
  rewrite <- (ltb_irrefl a). symmetry. eapply ltb_trans; eassumption.
Qed.

Lemma insert_stable_sorted (x : A) (s : list A) :
  StronglySorted (key_le ltb key) s ->
StronglySorted (key_le ltb key) (insert_stable ltb key x s).
Proof.
  induction 1 as [|y s Hs IH Hy]; simpl.
  - constructor; constructor.
  - destruct (ltb (key y) (key x)) eqn:Hlt.
    + constructor; [assumption|].
      eapply Permutation_Forall;
        [symmetry; apply insert_stable_perm|].
      constructor; [apply ltb_asym; exact Hlt|assumption].
    + constructor; [constructor; assumption|].
      constructor; [exact Hlt|].
      eapply Forall_impl; [|exact Hy].
      intros z Hz. eapply key_le_trans; [exact Hlt|exact Hz].
Qed.

Lemma stable_sort_sorted (l : list A) :
  StronglySorted (key_le ltb key) (stable_sort ltb key l).
Proof.
  induction l as [|x l IH]; simpl; [constructor|].
  apply insert_stable_sorted. exact IH.
Qed.

(** Two sorted arrangements of items with pairwise distinct keys agree. *)
Lemma sorted_unique (l1 : list A) :
  forall l2,
    StronglySorted (key_le ltb key) l1 -> StronglySorted (key_le ltb key) l2 ->
    Permutation l1 l2 -> NoDup (map key l1) -> l1 = l2.
Proof.
  induction l1 as [|a l1 IH]; intros l2 H1 H2 HP HN.
  - apply Permutation_nil in HP. subst. reflexivity.
  - destruct l2 as [|b l2];
      [apply Permutation_sym, Permutation_nil in HP; discriminate|].
    inversion H1 as [|? ? H1' Ha]; subst.
    inversion H2 as [|? ? H2' Hb]; subst.
    inversion HN as [|? ? Hnotin HN']; subst.
    assert (Hab : a = b).
    { assert (Hin : In a (b :: l2))
        by (eapply Permutation_in; [exact HP|left; reflexivity]).
      destruct Hin as [->|Hin]; [reflexivity|].
      assert (Hin' : In b (a :: l1))
        by (eapply Permutation_in;
            [symmetry; exact HP|left; reflexivity]).
      destruct Hin' as [->|Hin']; [reflexivity|].
      exfalso. apply Hnotin.
      rewrite Forall_forall in Ha, Hb.
      pose proof (Ha _ Hin') as Hle1. pose proof (Hb _ Hin) as Hle2.
      unfold key_le in *.
      rewrite (ltb_total _ _ Hle2 Hle1). apply in_map. exact Hin'. }
    subst b. f_equal.
    apply IH; try assumption. eapply Permutation_cons_inv. exact HP.
Qed.

(** With pairwise distinct keys the descending order is the ascending
    order read backwards. *)
Lemma py_sorted_reverse (l : list A) :
  NoDup (map key l) ->
  py_sorted ltb key true l = rev (py_sorted ltb key false l).
Proof.
  intros HN. unfold py_sorted. f_equal.
  apply sorted_unique; try apply stable_sort_sorted.
  - rewrite !stable_sort_perm. symmetry. apply Permutation_rev.
  - eapply Permutation_NoDup; [|exact HN].
    apply Permutation_map. rewrite stable_sort_perm. apply Permutation_rev.
Qed.
End StableSort.

(** *** The two key orders *)

Lemma Zltb_irrefl (a : Z) : (a <? a) = false.
Proof. apply Z.ltb_irrefl. Qed.

Lemma Zltb_trans (a b c : Z) :
  (a <? b) = true -> (b <? c) = true -> (a <? c) = true.
Proof. rewrite !Z.ltb_lt. lia. Qed.

Lemma Zltb_total (a b : Z) : (a <? b) = false -> (b <? a) = false -> a = b.
Proof. rewrite !Z.ltb_ge. lia. Qed.

Lemma string_ltb_lt (a b : string) :
  String.ltb a b = true <-> String_as_OT.lt a b.
Proof.
  unfold String.ltb, String_as_OT.lt.
  change (String_as_OT.compare a b) with (String.compare a b).
  destruct (String.compare a b); split; congruence.
Qed.

Lemma string_ltb_irrefl (a : string) : String.ltb a a = false.
Proof.
  destruct (String.ltb a a) eqn:H; [|reflexivity].
  apply string_ltb_lt in H.
  exfalso. exact (RelationClasses.StrictOrder_Irreflexive a H).
Qed.

Lemma string_ltb_trans (a b c : string) :
  String.ltb a b = true -> String.ltb b c = true -> String.ltb a c = true.
Proof.
  rewrite !string_ltb_lt. apply RelationClasses.StrictOrder_Transitive.
Qed.

Lemma string_ltb_total (a b : string) :
  String.ltb a b = false -> String.ltb b a = false -> a = b.
Proof.
  unfold String.ltb. rewrite (String.compare_antisym b a).
  destruct (String.compare a b) eqn:H; simpl; try discriminate.
  intros _ _. apply String.compare_eq_iff. exact H.
Qed.

Lemma fs_ltb_irrefl (a : string * string) : fs_ltb a a = false.
Proof. unfold fs_ltb. rewrite String.eqb_refl. apply string_ltb_irrefl. Qed.

Lemma fs_ltb_trans (a b c : string * string) :
  fs_ltb a b = true -> fs_ltb b c = true -> fs_ltb a c = true.
Proof.
  destruct a as [a1 a2], b as [b1 b2], c as [c1 c2]. unfold fs_ltb. simpl.
  destruct (String.eqb_spec a1 b1) as [->|Hab];
    destruct (String.eqb_spec b1 c1) as [->|Hbc];
    try (rewrite String.eqb_refl);
    try (destruct (String.eqb_spec b1 c1); [contradiction|]);
    try (destruct (String.eqb_spec a1 c1); [contradiction|]);
    try apply string_ltb_trans; auto.
  intros H1 H2. destruct (String.eqb_spec a1 c1) as [->|Hac].
  - pose proof (string_ltb_trans _ _ _ H1 H2) as H.
    rewrite string_ltb_irrefl in H. discriminate.
  - eapply string_ltb_trans; eassumption.
Qed.

Lemma fs_ltb_total (a b : string * string) :
  fs_ltb a b = false -> fs_ltb b a = false -> a = b.
Proof.
  destruct a as [a1 a2], b as [b1 b2]. unfold fs_ltb. simpl.
  rewrite (String.eqb_sym b1 a1).
  destruct (String.eqb_spec a1 b1) as [->|Hab]; intros H1 H2.
  - f_equal. apply string_ltb_total; assumption.
  - exfalso. apply Hab. apply string_ltb_total; assumption.
Qed.

(** C7, as stated, fails on a tie: for the siblings "a" and "b" of equal
    size key the descending size order keeps them in insertion order, while
    the ascending order read backwards swaps them. *)
Lemma descending_not_reversed_ascending :
  _sort_size dir_a = _sort_size dir_b /\
  py_sorted Z.ltb _sort_size true [dir_a; dir_b] = [dir_a; dir_b] /\
  rev (py_sorted Z.ltb _sort_size false [dir_a; dir_b]) = [dir_b; dir_a] /\
  py_sorted Z.ltb _sort_size true [dir_a; dir_b]
    <> rev (py_sorted Z.ltb _sort_size false [dir_a; dir_b]).
Proof. repeat split. discriminate. Qed.

(** C7, amended: under either policy [_sort_tree] returns a permutation of
    the siblings; under the size policy the siblings of one size key (absent
    and zero sizes count as 0) keep their insertion order; and for each
    policy the descending order is the ascending order read backwards
    whenever the sort keys of the siblings are pairwise distinct. *)
Theorem sort_tree_properties (self : noder) (items : list node) :
  Permutation (_sort_tree self items) items /\
  (sortsize self = true ->
   forall k,
     filter (fun n => _sort_size n =? k) (_sort_tree self items) =
     filter (fun n => _sort_size n =? k) items) /\
  (NoDup (map _sort_size items) ->
   py_sorted Z.ltb _sort_size true items =
   rev (py_sorted Z.ltb _sort_size false items)) /\
  (NoDup (map _sort_fs items) ->
   py_sorted fs_ltb _sort_fs true items =
   rev (py_sorted fs_ltb _sort_fs false items)).
Proof.
  repeat split.
  - unfold _sort_tree, _sort_tree_on.
    destruct (sortsize self); apply py_sorted_perm.
  - intros Hs k. unfold _sort_tree, _sort_tree_on. rewrite Hs.
    apply (py_sorted_stable Z.ltb _sort_size Z.eqb Z.eqb_eq Zltb_irrefl).
  - apply (py_sorted_reverse Z.ltb _sort_size Zltb_irrefl Zltb_trans Zltb_total).
  - apply (py_sorted_reverse fs_ltb _sort_fs fs_ltb_irrefl fs_ltb_trans
             fs_ltb_total).
Qed.

Lemma sort_tree_properties_witness :
  _sort_tree (Noder true false true false) [cover_jpg; dir_a; song_mp3; dir_b]
    = [song_mp3; cover_jpg; dir_a; dir_b] /\
  py_sorted Z.ltb _sort_size true [cover_jpg; song_mp3]
    = rev (py_sorted Z.ltb _sort_size false [cover_jpg; song_mp3]) /\
  py_sorted fs_ltb _sort_fs true [song_mp3; dir_a; cover_jpg]
    = rev (py_sorted fs_ltb _sort_fs false [song_mp3; dir_a; cover_jpg]).
Proof.
  split; [reflexivity|]. split.
  - apply (sort_tree_properties (Noder true false true false)
             [cover_jpg; song_mp3]).
    repeat constructor; simpl; intuition discriminate.
  - apply (sort_tree_properties (Noder true false false false)
             [song_mp3; dir_a; cover_jpg]).
    repeat constructor; simpl; intuition discriminate.
Defined.

(** ** References *)

Lemma node_at_app (t : node) (l l' : loc) :
  node_at t (l ++ l') =
  match node_at t l with
  | Some n => node_at n l'
  | None => None
  end.
Proof.
  revert t. induction l as [|i l IH]; intros t; simpl; [reflexivity|].
  destruct (nth_error (children t) i); [apply IH|reflexivity].
Qed.

Lemma node_at_child (t : node) (l : loc) (n c : node) (i : nat) :
  node_at t l = Some n -> nth_error (children n) i = Some c ->
  node_at t (l ++ [i]) = Some c.
Proof. intros Hn Hc. rewrite node_at_app, Hn. simpl. rewrite Hc. reflexivity. Qed.

Lemma nth_error_update_nth {A : Type} (f : A -> A) (l : list A) :
  forall i x, nth_error l i = Some x ->
              nth_error (update_nth i f l) i = Some (f x).
Proof.
  induction l as [|y l IH]; intros [|i] x H; simpl in *; try discriminate.
  - inversion H; subst. reflexivity.
  - apply IH. exact H.
Qed.

Lemma node_at_update_at (f : node -> node) (l : loc) :
  forall t n, node_at t l = Some n -> node_at (update_at t l f) l = Some (f n).
Proof.
  induction l as [|i l IH]; intros t n H; simpl in *.
  - inversion H; subst. reflexivity.
  - destruct (nth_error (children t) i) as [c|] eqn:Ec; [|discriminate].
    rewrite (nth_error_update_nth _ _ _ _ Ec). apply IH. exact H.
Qed.

Lemma find_child_spec (s : string) (cs : list node) :
  forall k i, find_child s cs k = Some i ->
    exists c, (k <= i)%nat /\ nth_error cs (i - k) = Some c /\ name c = s.
Proof.
  induction cs as [|c cs IH]; intros k i H; simpl in H; [discriminate|].
  destruct (String.eqb_spec (name c) s) as [Hn|Hn].
  - inversion H; subst. exists c. rewrite Nat.sub_diag. auto.
  - destruct (IH _ _ H) as (c' & Hle & Hnth & Hname).
    exists c'. split; [lia|]. split; [|assumption].
    replace (i - k)%nat with (S (i - S k)) by lia. exact Hnth.
Qed.

Lemma find_child_none (s : string) (cs : list node) :
  forall k, find_child s cs k = None -> Forall (fun c => name c <> s) cs.
Proof.
  induction cs as [|c cs IH]; intros k H; simpl in H; [constructor|].
  destruct (String.eqb_spec (name c) s) as [Hn|Hn]; [discriminate|].
  constructor; [assumption|]. eapply IH. exact H.
Qed.

(** ** Search *)

(** Whenever [find_name] returns, it returns what [findall] found: the
    Storage nodes are skipped only while printing and collecting paths. *)
Lemma find_name_result (self : noder) (t : node) (root : loc) (key : string)
    (found : list loc) :
  find_name self t root key = Ret found ->
  found = findall t root (_find_name key).
Proof.
  unfold find_name. destruct (find_name_paths _ _ _); simpl; congruence.
Qed.

(** C2 fails on the code: searching the first scenario's catalog for "usb"
    returns the Storage node "usb1". *)
Lemma find_name_returns_storage :
  find_name default_noder catalog [] "usb" = Ret [[0%nat]] /\
  node_at catalog [0%nat] = Some usb1 /\
  type usb1 = TYPE_STORAGE /\
  _find_name "usb" usb1 = true.
Proof. repeat split. Qed.

(** The paths collected on the same search leave the Storage out. *)
Example find_name_paths_skip_storage :
  find_name_paths default_noder catalog [[0%nat]] = Ret [].
Proof. reflexivity. Qed.

(** ** The archive flattener *)

(** C3, as stated, fails: for the member "a/b.jpg" of "photos.zip", with no
    child "a" to resolve, the new Archive child is named "b.jpg"; the full
    member path is kept in its relpath. *)
Lemma flat_fallback_names_last_segment :
  exists t',
    list_to_tree catalog_zip photos_zip_loc ["a/b.jpg"] = Ret t' /\
    map (fun c => (name c, type c, relpath c))
        (children (obj t' photos_zip_loc))
    = [("b.jpg", TYPE_ARC, Some "a/b.jpg")] /\
    map name (children (obj t' photos_zip_loc)) <> ["a/b.jpg"].
Proof.
  eexists. split; [reflexivity|]. split; [reflexivity|]. discriminate.
Qed.

(** C3, amended: when the member path has two or more segments and its
    parent chain does not resolve below the archive File node, [_add_entry]
    appends one Archive child to the archive File node itself; that child is
    named by the last segment of the member path and keeps the full member
    path as its relpath, and nothing else in the tree changes. *)
Theorem add_entry_flat_fallback (t : node) (top : loc) (topn : node)
    (nm : string) :
  node_at t top = Some topn ->
  (2 <= List.length (split sep (rstrip sep nm)))%nat ->
  resolver_get t top
    (String.concat "/" (removelast (split sep (rstrip sep nm))))
    = Raise ChildResolverError ->
  exists t' c,
    _add_entry t nm top = Ret t' /\
    t' = update_at t top (fun p => attach p c) /\
    node_at t' top = Some (set_children topn (children topn ++ [c])) /\
    name c = last (split sep (rstrip sep nm)) "" /\
    relpath c = Some nm /\
    type c = TYPE_ARC /\
    archive c = Some (name topn).
Proof.
  intros Htop Hlen Hget.
  set (entries := split sep (rstrip sep nm)) in *.
  exists (update_at t top
            (fun p => attach p (archive_node (last entries "") nm (name topn)))),
         (archive_node (last entries "") nm (name topn)).
  split.
  - unfold _add_entry. fold entries.
    destruct (Nat.eqb_spec (List.length entries) 1) as [He|He]; [lia|].
    rewrite Hget. unfold attach_at, obj. rewrite Htop. reflexivity.
  - split; [reflexivity|]. split; [|repeat split].
    rewrite (node_at_update_at _ _ _ _ Htop). reflexivity.
Qed.

Lemma add_entry_flat_fallback_witness :
  exists t' c,
    _add_entry catalog_zip "a/b.jpg" photos_zip_loc = Ret t' /\
    t' = update_at catalog_zip photos_zip_loc (fun p => attach p c) /\
    node_at t' photos_zip_loc
      = Some (set_children photos_zip (children photos_zip ++ [c])) /\
    name c = "b.jpg" /\
    relpath c = Some "a/b.jpg" /\
    type c = TYPE_ARC /\
    archive c = Some "photos.zip".
Proof.
  apply (add_entry_flat_fallback catalog_zip photos_zip_loc photos_zip "a/b.jpg");
    [reflexivity | simpl; lia | reflexivity].
Defined.

(** ** Exact resolution *)

Lemma split_absolute (path : string) :
  starts_with "/" path = true -> exists rest, split sep path = "" :: rest.
Proof.
  destruct path as [|a s]; simpl; [discriminate|].
  rewrite Ascii.eqb_sym. unfold sep.
  destruct (Ascii.eqb a "/"); [|discriminate].
  intros _. exists (split "/" s). reflexivity.
Qed.

Lemma names_are_relative (path : string) :
  Forall (fun s => is_name s = true) (split sep path) ->
  starts_with "/" path = false.
Proof.
  intros HF. destruct (starts_with "/" path) eqn:Hp; [|reflexivity].
  destruct (split_absolute _ Hp) as [rest Hs]. rewrite Hs in HF.
  inversion HF as [|? ? Hbad]; subst. vm_compute in Hbad. discriminate Hbad.
Qed.

Lemma is_name_plain (s : string) :
  is_name s = true -> (s =? "..")%string = false /\ is_special s = false.
Proof.
  unfold is_name, is_special. intros H.
  apply andb_true_iff in H. destruct H as [H H3].
  apply andb_true_iff in H. destruct H as [H1 H2].
  apply negb_true_iff in H1, H2, H3. rewrite H1, H2, H3. auto.
Qed.

Lemma get_parts_exact (t : node) (segs : list string) :
  Forall (fun s => is_name s = true) segs ->
  forall l n, node_at t l = Some n ->
    get_parts t (Some l) segs =
    match resolve_exact n segs with
    | Some l' => Ret (Some (l ++ l'))
    | None => Raise ChildResolverError
    end.
Proof.
  induction 1 as [|s segs Hs _ IH]; intros l n Hn; simpl.
  - rewrite app_nil_r. reflexivity.
  - unfold get_step. destruct (is_name_plain _ Hs) as [-> ->].
    simpl. rewrite Hn. simpl.
    destruct (find_child s (children n) 0) as [i|] eqn:Ef; [|reflexivity].
    destruct (find_child_spec _ _ _ _ Ef) as (c & _ & Hc & _).
    rewrite Nat.sub_0_r in Hc. rewrite Hc. simpl.
    pose proof (IH (l ++ [i]) c (node_at_child _ _ _ _ _ Hn Hc)) as E.
    unfold loc in *. rewrite E.
    destruct (resolve_exact c segs) as [l'|]; simpl; [|reflexivity].
    rewrite <- app_assoc. reflexivity.
Qed.

Lemma resolve_exact_names (segs : list string) :
  forall n l, resolve_exact n segs = Some l ->
    names_along n l = Some segs /\ exists d, node_at n l = Some d.
Proof.
  induction segs as [|s segs IH]; intros n l H; simpl in H.
  - inversion H; subst. simpl. eauto.
  - destruct (find_child s (children n) 0) as [i|] eqn:Ef; [|discriminate].
    destruct (find_child_spec _ _ _ _ Ef) as (c & _ & Hc & Hname).
    rewrite Nat.sub_0_r in Hc. rewrite Hc in H.
    destruct (resolve_exact c segs) as [l'|] eqn:Er; [|discriminate].
    inversion H; subst. simpl. rewrite Hc.
    destruct (IH _ _ Er) as [-> Hd]. simpl. auto.
Qed.

(** Resolution stops at the first segment no child is named after. *)
Lemma resolve_exact_none (segs : list string) :
  forall n, resolve_exact n segs = None ->
    exists pre s post l d,
      segs = pre ++ s :: post /\
      resolve_exact n pre = Some l /\
      node_at n l = Some d /\
      Forall (fun c => name c <> s) (children d).
Proof.
  induction segs as [|s segs IH]; intros n H; simpl in H; [discriminate|].
  destruct (find_child s (children n) 0) as [i|] eqn:Ef.
  - destruct (find_child_spec _ _ _ _ Ef) as (c & _ & Hc & Hname).
    rewrite Nat.sub_0_r in Hc. rewrite Hc in H.
    destruct (resolve_exact c segs) as [l'|] eqn:Er; [discriminate|].
    destruct (IH _ Er) as (pre & s' & post & l & d & -> & Hpre & Hd & Hno).
    exists (s :: pre), s', post, (i :: l), d. simpl.
    rewrite Ef, Hc, Hpre, Hd. auto.
  - exists [], s, segs, [], n. simpl. repeat split.
    eapply find_child_none. exact Ef.
Qed.

Lemma uniq_names_here (n : node) :
  uniq_names n -> NoDup (map name (children n)).
Proof.
  unfold uniq_names. rewrite preorder_unfold. intros H.
  inversion H; assumption.
Qed.

Lemma preorder_child (n c : node) (i : nat) :
  nth_error (children n) i = Some c ->
  forall d, In d (preorder c) -> In d (preorder n).
Proof.
  intros Hc d Hd. rewrite preorder_unfold. right.
  apply in_flat_map. exists c. split; [|assumption].
  eapply nth_error_In. exact Hc.
Qed.

Lemma uniq_names_child (n c : node) (i : nat) :
  uniq_names n -> nth_error (children n) i = Some c -> uniq_names c.
Proof.
  unfold uniq_names. rewrite !Forall_forall. intros H Hc d Hd.
  apply H. eapply preorder_child; eassumption.
Qed.

Lemma uniq_names_index (n c c' : node) (i j : nat) :
  uniq_names n ->
  nth_error (children n) i = Some c -> nth_error (children n) j = Some c' ->
  name c = name c' -> i = j.
Proof.
  intros Hu Hi Hj Hname.
  pose proof (uniq_names_here _ Hu) as Hnd.
  rewrite NoDup_nth_error in Hnd. apply Hnd.
  - rewrite length_map. apply nth_error_Some. congruence.
  - rewrite !nth_error_map, Hi, Hj. simpl. congruence.
Qed.

(** With distinct sibling names the node found is the only one whose chain
    of names spells the path. *)
Lemma resolve_exact_unique (segs : list string) :
  forall n l, uniq_names n -> names_along n l = Some segs ->
              resolve_exact n segs = Some l.
Proof.
  induction segs as [|s segs IH]; intros n l Hu H.
  - destruct l as [|i l]; [reflexivity|]. simpl in H.
    destruct (nth_error (children n) i); [|discriminate].
    destruct (names_along n0 l); discriminate.
  - destruct l as [|i l]; [discriminate|]. simpl in H.
    destruct (nth_error (children n) i) as [c|] eqn:Hc; [|discriminate].
    destruct (names_along c l) as [ns|] eqn:Hl; [|discriminate].
    inversion H; subst. simpl.
    destruct (find_child (name c) (children n) 0) as [j|] eqn:Ef.
    + destruct (find_child_spec _ _ _ _ Ef) as (c' & _ & Hc' & Hname).
      rewrite Nat.sub_0_r in Hc'.
      assert (j = i) by (eapply uniq_names_index; eauto). subst j.
      rewrite Hc. rewrite (IH c l (uniq_names_child _ _ _ Hu Hc) Hl).
      reflexivity.
    + pose proof (find_child_none _ _ _ Ef) as Hno.
      rewrite Forall_forall in Hno. exfalso.
      apply (Hno c); [eapply nth_error_In; exact Hc|reflexivity].
Qed.

(** C9: on a path of name segments [get_node] walks the segments from the
    given node, at each one taking the child with exactly that name.  It
    returns the node reached, whose chain of names is the path and which is
    the only such node when sibling names are distinct; it returns no node
    exactly when some segment has no child of that name at the node reached
    so far. *)
Theorem get_node_exact (t : node) (top : loc) (n : node) (path : string) :
  node_at t top = Some n ->
  Forall (fun s => is_name s = true) (split sep path) ->
  get_node t top path
    = Ret (option_map (app top) (resolve_exact n (split sep path))) /\
  (forall l, resolve_exact n (split sep path) = Some l ->
     names_along n l = Some (split sep path) /\
     (exists d, node_at t (top ++ l) = Some d) /\
     (uniq_names n ->
      forall l', names_along n l' = Some (split sep path) -> l' = l)) /\
  (resolve_exact n (split sep path) = None ->
     exists pre s post l d,
       split sep path = pre ++ s :: post /\
       resolve_exact n pre = Some l /\
       node_at n l = Some d /\
       Forall (fun c => name c <> s) (children d)).
Proof.
  intros Hn Hsegs. split; [|split].
  - unfold get_node, resolver_get, resolver_start.
    rewrite (names_are_relative _ Hsegs). simpl.
    rewrite (get_parts_exact _ _ Hsegs _ _ Hn).
    destruct (resolve_exact n (split sep path)); reflexivity.
  - intros l Hl. destruct (resolve_exact_names _ _ _ Hl) as [Hnames [d Hd]].
    split; [assumption|]. split.
    + exists d. rewrite node_at_app, Hn. exact Hd.
    + intros Hu l' Hl'.
      pose proof (resolve_exact_unique _ _ _ Hu Hl') as H. congruence.
  - apply resolve_exact_none.
Qed.

Lemma get_node_exact_witness :
  get_node catalog [] "usb1/music/cover.jpg" = Ret (Some [0; 0; 1]%nat) /\
  get_node catalog [] "usb1/music/missing.txt" = Ret None.
Proof.
  split.
  - apply (get_node_exact catalog [] catalog "usb1/music/cover.jpg");
      [reflexivity | repeat constructor].
  - apply (get_node_exact catalog [] catalog "usb1/music/missing.txt");
      [reflexivity | repeat constructor].
Defined.

(** ** Glob resolution *)

Lemma indexed_nth {A : Type} (cs : list A) :
  forall k i c, In (i, c) (indexed k cs) ->
                (k <= i)%nat /\ nth_error cs (i - k) = Some c.
Proof.
  induction cs as [|x cs IH]; intros k i c H; simpl in H; [contradiction|].
  destruct H as [H|H].
  - inversion H; subst. rewrite Nat.sub_diag. auto.
  - destruct (IH _ _ _ H) as [Hle Hn]. split; [lia|].
    replace (i - k)%nat with (S (i - S k)) by lia. exact Hn.
Qed.

Lemma map_app_child (l : loc) (i : nat) (Y : list loc) :
  map (app (l ++ [i])) Y = map (app l) (map (cons i) Y).
Proof.
  rewrite map_map. apply map_ext. intros y. rewrite <- app_assoc. reflexivity.
Qed.

Lemma swallow_ret (wild : bool) (X : list loc) :
  swallow_resolver_error wild (Ret X) = Ret X.
Proof. reflexivity. Qed.

Section GlobSpec.
Variable name_match : string -> string -> bool.

(** A pattern without [*] and [?] matches its own text only. *)
Hypothesis literal_match :
  forall nm pat, is_wildcard pat = false ->
                 name_match nm pat = (nm =? pat)%string.

Lemma glob_parts_unfold (t : node) (nm : string) (rem : list string)
    (cur : option loc) :
  is_name nm = true ->
  glob_parts name_match t (nm :: rem) cur =
  ('(l, n) <- deref t cur ;;
   matches <- glob_find name_match t nm rem l (children n) 0 ;;
   match matches with
   | [] => if is_wildcard nm then Ret [] else Raise ChildResolverError
   | _ :: _ => Ret matches
   end).
Proof.
  intros Hnm. destruct (is_name_plain _ Hnm) as [H1 H2].
  simpl. rewrite H1, H2.
  destruct (deref t cur) as [[l n]|e]; simpl; [|reflexivity].
  f_equal. generalize 0%nat.
  induction (children n) as [|c cs IH]; intros i; [reflexivity|].
  simpl. rewrite IH. reflexivity.
Qed.

Lemma no_match_no_contribution (nm : string) (rem : list string)
    (cs : list node) :
  Forall (fun c => name_match (name c) nm = false) cs ->
  forall i, flat_map (child_matches name_match nm rem) (indexed i cs) = [].
Proof.
  induction 1 as [|c cs Hc _ IH]; intros i; simpl; [reflexivity|].
  unfold child_matches at 1. simpl. rewrite Hc. apply IH.
Qed.

Lemma literal_siblings (n : node) (nm : string) (cs : list node) (i : nat)
    (c : node) :
  is_wildcard nm = false ->
  uniq_names n ->
  nth_error (children n) i = Some c ->
  name_match (name c) nm = true ->
  (forall k c', nth_error cs k = Some c' ->
                nth_error (children n) (S i + k) = Some c') ->
  Forall (fun c' => name_match (name c') nm = false) cs.
Proof.
  intros Hw Hu Hc Hm Hcs. apply Forall_forall. intros c' Hin.
  destruct (In_nth_error _ _ Hin) as [k Hk].
  destruct (name_match (name c') nm) eqn:Hm'; [|reflexivity].
  rewrite literal_match in Hm, Hm' by assumption.
  apply String.eqb_eq in Hm, Hm'.
  assert (i = (S i + k)%nat)
    by (eapply uniq_names_index; eauto; congruence).
  lia.
Qed.

Lemma glob_find_spec (t : node) (nm : string) (rem : list string)
    (l : loc) (n : node) :
  node_at t l = Some n ->
  (rem <> [] ->
   forall i c, nth_error (children n) i = Some c ->
     glob_answer (l ++ [i]) (all_matches name_match rem c) (uniq_names c)
       (glob_parts name_match t rem (Some (l ++ [i])))) ->
  forall cs i,
    (forall k c, nth_error cs k = Some c ->
                 nth_error (children n) (i + k) = Some c) ->
    (exists X,
        glob_find name_match t nm rem l cs i = Ret X /\
        incl X (map (app l)
                  (flat_map (child_matches name_match nm rem) (indexed i cs))) /\
        (uniq_names n ->
         X = map (app l)
               (flat_map (child_matches name_match nm rem) (indexed i cs))))
    \/ (glob_find name_match t nm rem l cs i = Raise ChildResolverError /\
        is_wildcard nm = false /\
        (exists c, In c cs /\ name_match (name c) nm = true) /\
        (uniq_names n ->
         flat_map (child_matches name_match nm rem) (indexed i cs) = [])).
Proof.
  intros Hn IHrem. induction cs as [|c cs IH]; intros i Hcs.
  - left. exists []. simpl. repeat split. apply incl_nil_l.
  - assert (Hc : nth_error (children n) i = Some c)
      by (rewrite <- (Nat.add_0_r i); apply Hcs; reflexivity).
    assert (Hcs' : forall k c', nth_error cs k = Some c' ->
                     nth_error (children n) (S i + k) = Some c')
      by (intros k c' Hk; rewrite Nat.add_succ_comm; apply Hcs; exact Hk).
    specialize (IH (S i) Hcs').
    simpl glob_find.
    change (flat_map (child_matches name_match nm rem) (indexed i (c :: cs)))
      with (child_matches name_match nm rem (i, c)
            ++ flat_map (child_matches name_match nm rem) (indexed (S i) cs)).
    set (others := flat_map (child_matches name_match nm rem)
                            (indexed (S i) cs)) in *.
    unfold child_matches. simpl fst. simpl snd.
    destruct (name_match (name c) nm) eqn:Hm.
    + (* this child matches the segment *)
      assert (Hsub :
        glob_answer (l ++ [i]) (all_matches name_match rem c) (uniq_names c)
          (match rem with
           | [] => Ret [l ++ [i]]
           | _ :: _ => glob_parts name_match t rem (Some (l ++ [i]))
           end)).
      { destruct rem as [|r rem'].
        - left. exists [l ++ [i]]. simpl. rewrite app_nil_r.
          repeat split. apply incl_refl.
        - apply IHrem; [discriminate|exact Hc]. }
      destruct Hsub as [(X & -> & Hincl & Hall) | [-> Hnone]].
      * rewrite swallow_ret. simpl.
        destruct IH as [(Y & -> & HinclY & HallY)
                       | (-> & Hw & (c' & Hin' & Hm') & _)].
        -- left. exists (X ++ Y). simpl. split; [reflexivity|].
           rewrite map_app, <- map_app_child. split.
           ++ apply incl_app_app; assumption.
           ++ intros Hu.
              rewrite (Hall (uniq_names_child _ _ _ Hu Hc)), (HallY Hu).
              reflexivity.
        -- right. simpl. repeat split; [assumption|eauto using in_cons|].
           intros Hu. exfalso.
           pose proof (literal_siblings _ _ _ _ _ Hw Hu Hc Hm Hcs') as Hno.
           rewrite Forall_forall in Hno. rewrite (Hno _ Hin') in Hm'.
           discriminate.
      * destruct (is_wildcard nm) eqn:Hw; simpl.
        -- (* a pattern: the child is passed over *)
           destruct IH as [(Y & -> & HinclY & HallY)
                          | (_ & Hbad & _)]; [|discriminate].
           left. exists Y. simpl. split; [reflexivity|].
           rewrite map_app. split.
           ++ apply incl_appr. exact HinclY.
           ++ intros Hu.
              rewrite (Hnone (uniq_names_child _ _ _ Hu Hc)), (HallY Hu).
              reflexivity.
        -- (* literal text: the error goes up *)
           right. repeat split; [exists c; split; [left; reflexivity|exact Hm]|].
           intros Hu.
           rewrite (Hnone (uniq_names_child _ _ _ Hu Hc)). simpl.
           unfold others. apply no_match_no_contribution.
           eapply literal_siblings; eassumption.
    + (* this child does not match *)
      rewrite swallow_ret. simpl.
      destruct IH as [(Y & -> & HinclY & HallY)
                     | (-> & Hw & (c' & Hin' & Hm') & Hnone)].
      * left. exists Y. simpl. auto.
      * right. simpl. repeat split; [assumption|eauto using in_cons|assumption].
Qed.

Lemma glob_parts_spec (t : node) (segs : list string) :
  segs <> [] ->
  Forall (fun s => is_name s = true) segs ->
  forall l n, node_at t l = Some n ->
    glob_answer l (all_matches name_match segs n) (uniq_names n)
      (glob_parts name_match t segs (Some l)).
Proof.
  induction segs as [|nm rem IH]; intros Hne HF l n Hn; [contradiction|].
  inversion HF as [|? ? Hnm HF']; subst.
  rewrite (glob_parts_unfold _ _ _ _ Hnm). simpl. rewrite Hn. simpl.
  assert (Hloop := glob_find_spec t nm rem l n Hn).
  specialize (Hloop
    (fun Hr i c Hc => IH Hr HF' _ _ (node_at_child _ _ _ _ _ Hn Hc))
    (children n) 0%nat (fun k c H => H)).
  change (flat_map (child_matches name_match nm rem) (indexed 0 (children n)))
    with (all_matches name_match (nm :: rem) n) in Hloop.
  destruct Hloop as [(X & -> & Hincl & Hall) | (-> & Hw & _ & Hnone)].
  - simpl. destruct X as [|x X].
    + destruct (is_wildcard nm).
      * left. exists []. auto.
      * right. split; [reflexivity|]. intros Hu.
        specialize (Hall Hu). symmetry in Hall.
        apply map_eq_nil in Hall. exact Hall.
    + left. exists (x :: X). auto.
  - right. simpl. auto.
Qed.
End GlobSpec.

(** ** [walk] *)

Lemma split_nonempty (c : ascii) (s : string) : split c s <> [].
Proof.
  destruct s as [|a s]; simpl; [discriminate|].
  destruct (Ascii.eqb a c); [discriminate|].
  destruct (split c s); discriminate.
Qed.

Lemma split_empty_head (path x : string) (rest : list string) :
  split sep path = "" :: x :: rest -> starts_with "/" path = true.
Proof.
  destruct path as [|a s]; simpl; [discriminate|].
  rewrite (Ascii.eqb_sym "/" a). unfold sep.
  destruct (Ascii.eqb a "/"); [reflexivity|].
  destruct (split "/" s); discriminate.
Qed.

Lemma forallb_is_name (segs : list string) :
  forallb is_name segs = true -> Forall (fun s => is_name s = true) segs.
Proof. intros H. apply Forall_forall. apply forallb_forall. exact H. Qed.

Lemma glob_segments_start (t : node) (root start : loc) (path : string)
    (segs : list string) :
  glob_segments t root path = Some (start, segs) ->
  resolver_start t root path = Ret (Some start, segs) /\
  segs <> [] /\ Forall (fun s => is_name s = true) segs.
Proof.
  unfold glob_segments, resolver_start.
  destruct (forallb is_name (split sep path)) eqn:Hall.
  - intros H. inversion H; subst.
    rewrite (names_are_relative _ (forallb_is_name _ Hall)).
    split; [reflexivity|]. split; [apply split_nonempty|].
    apply forallb_is_name. exact Hall.
  - destruct (split sep path) as [|s0 [|p0 [|seg rest]]] eqn:Hs;
      try discriminate.
    intros H.
    destruct (String.eqb_spec s0 "") as [->|]; [|discriminate H].
    rewrite (split_empty_head _ _ _ Hs).
    destruct (String.eqb_spec p0 (name t)) as [Hp|]; [|discriminate H].
    destruct (String.eqb_spec p0 "") as [|Hp0]; [discriminate H|].
    simpl in H.
    destruct (is_name seg && forallb is_name rest) eqn:Hrest; [|discriminate H].
    inversion H; subst. simpl.
    destruct (String.eqb_spec (name t) ""); [contradiction|].
    rewrite String.eqb_refl. simpl.
    split; [reflexivity|]. split; [discriminate|].
    apply forallb_is_name. exact Hrest.
Qed.

Lemma all_matches_valid (name_match : string -> string -> bool)
    (segs : list string) :
  forall n m, In m (all_matches name_match segs n) ->
    (exists d, node_at n m = Some d) /\ List.length m = List.length segs.
Proof.
  induction segs as [|s segs IH]; intros n m H; simpl in H.
  - destruct H as [<-|[]]. simpl. eauto.
  - apply in_flat_map in H. destruct H as ([i c] & Hic & Hm).
    simpl in Hm. destruct (name_match (name c) s); [|contradiction].
    apply in_map_iff in Hm. destruct Hm as (m' & <- & Hm').
    destruct (indexed_nth _ _ _ _ Hic) as [_ Hc].
    rewrite Nat.sub_0_r in Hc.
    destruct (IH _ _ Hm') as [[d Hd] Hlen].
    simpl. rewrite Hc, Hlen. eauto.
Qed.

Lemma node_at_preorder (l : loc) :
  forall t d, node_at t l = Some d -> In d (preorder t).
Proof.
  induction l as [|i l IH]; intros t d H; simpl in H.
  - inversion H; subst. rewrite preorder_unfold. left. reflexivity.
  - destruct (nth_error (children t) i) as [c|] eqn:Hc; [|discriminate].
    eapply preorder_child; [exact Hc|]. apply IH. exact H.
Qed.

Lemma node_at_prefix (t : node) (l l' : loc) (d : node) :
  node_at t (l ++ l') = Some d -> exists p, node_at t l = Some p.
Proof.
  rewrite node_at_app. destruct (node_at t l); [eauto|discriminate].
Qed.

Lemma print_node_listing (self : noder) (t : node) (l : loc) (d : node) :
  node_at t l = Some d -> has_own_attributes d = true ->
  _print_node self t (Some l) false true false = Ret tt.
Proof.
  intros Hd Hattr. unfold _print_node, deref. rewrite Hd. simpl.
  unfold has_own_attributes in Hattr. unfold when, touch.
  destruct (type d =? TYPE_TOP)%string; [reflexivity|].
  destruct (type d =? TYPE_FILE)%string.
  { unfold has_int_size in Hattr.
    destruct (relpath d), (md5 d), (size d) as [[|z]|]; try discriminate.
    reflexivity. }
  destruct (type d =? TYPE_DIR)%string.
  { destruct (relpath d), (md5 d), (size d) as [[|z]|]; try discriminate.
    - reflexivity.
    - simpl. destruct (negb (z =? 0)); reflexivity. }
  destruct (type d =? TYPE_STORAGE)%string.
  { destruct (free d), (total d), (attr d); try discriminate. reflexivity. }
  destruct (type d =? TYPE_ARC)%string; [|reflexivity].
  destruct (relpath d), (md5 d), (size d), (archive d); try discriminate.
  destruct (arc self); reflexivity.
Qed.

Lemma for_each_ok {A : Type} (f : A -> outcome unit) (l : list A) :
  Forall (fun x => f x = Ret tt) l -> for_each f l = Ret tt.
Proof.
  induction 1 as [|x l Hx _ IH]; simpl; [reflexivity|].
  rewrite Hx. simpl. exact IH.
Qed.

Lemma sort_tree_on_perm {A : Type} (self : noder) (ob : A -> node)
    (items : list A) :
  Permutation (_sort_tree_on self ob items) items.
Proof. unfold _sort_tree_on. destruct (sortsize self); apply py_sorted_perm. Qed.

Lemma sort_tree_on_nil {A : Type} (self : noder) (ob : A -> node) :
  _sort_tree_on self ob [] = [].
Proof. unfold _sort_tree_on. destruct (sortsize self); reflexivity. Qed.

(** The listing of a non-empty answer of the resolver prints without error
    and hands back the sorted answer. *)
Lemma walk_listing (self : noder) (t : node) (start : loc) (n : node)
    (name_match : string -> string -> bool) (segs : list string)
    (X : list loc) :
  node_at t start = Some n -> segs <> [] -> well_attributed t ->
  incl X (map (app start) (all_matches name_match segs n)) ->
  (first <- match _sort_tree_on self (obj t) X with
            | [] => Raise IndexError
            | s0 :: _ => Ret s0
            end ;;
   _ <- _print_node self t (parent first) false true false ;;
   _ <- for_each (fun f => _print_node self t (Some f) false true false)
          (_sort_tree_on self (obj t) X) ;;
   Ret (Some (_sort_tree_on self (obj t) X)))
  = match X with
    | [] => Raise IndexError
    | _ :: _ => Ret (Some (_sort_tree_on self (obj t) X))
    end.
Proof.
  intros Hn Hne Hattr Hincl.
  pose proof (sort_tree_on_perm self (obj t) X) as Hperm.
  remember (_sort_tree_on self (obj t) X) as found eqn:Hfound.
  assert (Hvalid : forall f, In f found ->
            f <> [] /\ forall p, (exists q, f = p ++ q) ->
                         exists d, node_at t p = Some d
                                   /\ has_own_attributes d = true).
  { intros f Hf.
    apply (Permutation_in _ Hperm) in Hf.
    apply Hincl in Hf. apply in_map_iff in Hf. destruct Hf as (m & <- & Hm).
    destruct (all_matches_valid _ _ _ _ Hm) as [[d Hd] Hlen].
    split.
    - destruct m; [destruct segs; [contradiction|discriminate]|].
      destruct start; discriminate.
    - intros p [q Hq].
      assert (Hfull : node_at t (start ++ m) = Some d)
        by (rewrite node_at_app, Hn; exact Hd).
      rewrite Hq in Hfull. destruct (node_at_prefix _ _ _ _ Hfull) as [e He].
      exists e. split; [exact He|].
      unfold well_attributed in Hattr. rewrite Forall_forall in Hattr.
      apply Hattr. eapply node_at_preorder. exact He. }
  assert (Hprint : Forall (fun f =>
            _print_node self t (Some f) false true false = Ret tt) found).
  { apply Forall_forall. intros f Hf.
    destruct (Hvalid _ Hf) as [_ Hp].
    destruct (Hp f) as (d & Hd & Ha); [exists []; symmetry; apply app_nil_r|].
    eapply print_node_listing; eassumption. }
  destruct X as [|x X].
  - apply Permutation_sym, Permutation_nil in Hperm. subst found.
    rewrite Hperm. reflexivity.
  - destruct found as [|s0 found'].
    + apply Permutation_nil in Hperm. discriminate.
    + simpl bind at 1.
      destruct (Hvalid s0 (or_introl eq_refl)) as [Hs0 Hp].
      destruct (Hp (removelast s0)) as (d & Hd & Ha).
      { exists [last s0 0%nat]. apply app_removelast_last. exact Hs0. }
      assert (Hparent : parent s0 = Some (removelast s0))
        by (destruct s0; [contradiction|reflexivity]).
      rewrite Hparent, (print_node_listing _ _ _ _ Hd Ha). simpl.
      inversion Hprint as [|? ? Hfirst Hrest]; subst.
      rewrite Hfirst. simpl. rewrite (for_each_ok _ _ Hrest). reflexivity.
Qed.

Lemma contains_cons (c a : ascii) (s : string) :
  contains (String c "") (String a s) = Ascii.eqb c a || contains (String c "") s.
Proof. simpl. rewrite andb_true_r. reflexivity. Qed.

Lemma is_wildcard_cons (a : ascii) (s : string) :
  is_wildcard (String a s) = false ->
  Ascii.eqb a "?" = false /\ Ascii.eqb a "*" = false /\ is_wildcard s = false.
Proof.
  unfold is_wildcard. rewrite !contains_cons.
  rewrite (Ascii.eqb_sym "?" a), (Ascii.eqb_sym "*" a).
  destruct (Ascii.eqb a "?"), (Ascii.eqb a "*"); simpl;
    rewrite ?orb_true_r; try discriminate.
  auto.
Qed.

(** The resolver's matcher treats a pattern without [*] and [?] as plain
    text. *)
Lemma wildcard_match_literal (nm pat : string) :
  is_wildcard pat = false -> wildcard_match nm pat = (nm =? pat)%string.
Proof.
  revert nm. induction pat as [|p pat IH]; intros nm Hw.
  - destruct nm; reflexivity.
  - destruct (is_wildcard_cons _ _ Hw) as (Hq & Hs & Hw').
    simpl. rewrite Hs, Hq. destruct nm as [|c nm]; [reflexivity|].
    rewrite (IH _ Hw'). simpl. unfold String.eqb at 2. fold String.eqb.
    rewrite (Ascii.eqb_sym p c). reflexivity.
Qed.

Lemma render_unfold (self : noder) (n : node) (l : loc) :
  render self n l
  = l :: List.concat
           (map snd (_sort_tree_on self fst
                       (render_children self l (children n) 0))).
Proof.
  destruct n as [nm ty rp sz m a f t at_ ts_ cs]. simpl.
  f_equal. f_equal. f_equal. f_equal.
  generalize 0%nat. induction cs as [|c cs IH]; intros i; [reflexivity|].
  simpl. rewrite IH. reflexivity.
Qed.

Lemma render_children_In (self : noder) (l : loc) (cs : list node) :
  forall k c rl,
    In (c, rl) (render_children self l cs k) ->
    exists i, (k <= i)%nat /\ nth_error cs (i - k) = Some c
              /\ rl = render self c (l ++ [i]).
Proof.
  induction cs as [|x cs IH]; intros k c rl H; simpl in H; [contradiction|].
  destruct H as [H|H].
  - inversion H; subst. exists k. rewrite Nat.sub_diag. auto.
  - destruct (IH _ _ _ H) as (i & Hle & Hn & Hr).
    exists i. split; [lia|]. split; [|exact Hr].
    replace (i - k)%nat with (S (i - S k)) by lia. exact Hn.
Qed.

Lemma render_valid (self : noder) (n : node) :
  forall l r, In r (render self n l) ->
    exists m d, r = l ++ m /\ node_at n m = Some d.
Proof.
  induction n as [n IH] using node_ind'. intros l r H.
  rewrite render_unfold in H. destruct H as [<-|H].
  - exists [], n. rewrite app_nil_r. auto.
  - apply in_concat in H. destruct H as (rl & Hrl & Hr).
    apply in_map_iff in Hrl. destruct Hrl as ([c rl'] & Hsnd & Hin).
    simpl in Hsnd. subst rl'.
    apply (Permutation_in _ (sort_tree_on_perm self fst _)) in Hin.
    destruct (render_children_In _ _ _ _ _ _ Hin) as (i & _ & Hc & ->).
    rewrite Nat.sub_0_r in Hc.
    rewrite Forall_forall in IH.
    destruct (IH c (nth_error_In _ _ Hc) _ _ Hr) as (m & d & -> & Hd).
    exists (i :: m), d. split.
    + rewrite <- app_assoc. reflexivity.
    + simpl. rewrite Hc. exact Hd.
Qed.

(** Printing the subtree of a node of a well attributed tree raises
    nothing. *)
Lemma print_tree_ok (self : noder) (t : node) (l : loc) (pn : node) :
  node_at t l = Some pn -> well_attributed t ->
  print_tree self t (Some l) = Ret tt.
Proof.
  intros Hl Hattr. unfold print_tree, deref. rewrite Hl. simpl.
  apply for_each_ok. apply Forall_forall. intros r Hr.
  destruct (render_valid self pn l r Hr) as (m & d & -> & Hd).
  assert (Hfull : node_at t (l ++ m) = Some d)
    by (rewrite node_at_app, Hl; exact Hd).
  eapply print_node_listing; [exact Hfull|].
  unfold well_attributed in Hattr. rewrite Forall_forall in Hattr.
  apply Hattr. eapply node_at_preorder. exact Hfull.
Qed.

Lemma match_loc_valid (name_match : string -> string -> bool) (t : node)
    (start : loc) (n : node) (segs : list string) (f : loc) :
  node_at t start = Some n -> segs <> [] ->
  In f (map (app start) (all_matches name_match segs n)) ->
  f <> [] /\ exists d, node_at t f = Some d.
Proof.
  intros Hn Hne Hf. apply in_map_iff in Hf. destruct Hf as (m & <- & Hm).
  destruct (all_matches_valid _ _ _ _ Hm) as [[d Hd] Hlen]. split.
  - destruct m; [destruct segs; [contradiction|discriminate]|].
    destruct start; discriminate.
  - exists d. rewrite node_at_app, Hn. exact Hd.
Qed.

(** What [walk] returns with [rec] set. *)
Lemma walk_rec_result (name_match : string -> string -> bool)
    (self : noder) (t : node) (root start : loc) (n : node)
    (path : string) (segs : list string) :
  (forall nm pat, is_wildcard pat = false ->
                  name_match nm pat = (nm =? pat)%string) ->
  glob_segments t root path = Some (start, segs) ->
  node_at t start = Some n ->
  well_attributed t ->
  exists r,
    walk name_match self t root path true = Ret r /\
    (r = None \/ r = Some []) /\
    (all_matches name_match segs n = [] -> r = Some []) /\
    (uniq_names n -> all_matches name_match segs n <> [] -> r = None).
Proof.
  intros Hlit Hsegs Hn Hattr.
  destruct (glob_segments_start _ _ _ _ _ Hsegs) as (Hstart & Hne & HF).
  unfold walk, resolver_glob. rewrite Hstart. simpl bind at 1.
  destruct (glob_parts_spec name_match Hlit t segs Hne HF start n Hn)
    as [(X & -> & Hincl & Hall) | [-> Hnone]].
  - destruct X as [|x X].
    + exists (Some []). split; [reflexivity|]. split; [auto|]. split; [auto|].
      intros Hu Hm. exfalso. apply Hm. specialize (Hall Hu).
      symmetry in Hall. apply map_eq_nil in Hall. exact Hall.
    + destruct (match_loc_valid name_match t start n segs x Hn Hne
                  (Hincl x (or_introl eq_refl))) as [Hx [d Hd]].
      assert (Hparent : parent x = Some (removelast x))
        by (destruct x; [contradiction|reflexivity]).
      assert (Hp : exists pn, node_at t (removelast x) = Some pn).
      { rewrite (app_removelast_last 0%nat Hx) in Hd.
        eapply node_at_prefix. exact Hd. }
      destruct Hp as [pn Hpn].
      pose proof (print_tree_ok self t _ pn Hpn Hattr) as Hprint.
      exists None. split.
      { rewrite Hparent. unfold loc in *. rewrite Hprint. reflexivity. }
      split; [auto|]. split; [|auto].
      intros Hnil. rewrite Hnil in Hincl.
      destruct (Hincl x (or_introl eq_refl)).
  - exists (Some []). split; [reflexivity|]. split; [auto|]. split; [auto|].
    intros Hu Hm. exfalso. exact (Hm (Hnone Hu)).
Qed.




Lemma catalog_well_attributed : well_attributed catalog.
Proof. repeat constructor. Qed.


Example walk_jpg :
  walk wildcard_match default_noder catalog [] "usb1/*/*.jpg" false
    = Ret (Some [[0; 0; 1]%nat]) /\
  walk wildcard_match default_noder catalog [] "usb1/music/missing.txt" false
    = Ret (Some []).
Proof. split; reflexivity. Qed.

(** ** Relative paths of File and Dir nodes *)

Lemma sapp_assoc (a b c : string) :
  ((a ++ b) ++ c)%string = (a ++ (b ++ c))%string.
Proof. induction a as [|x a IH]; simpl; [reflexivity|]. rewrite IH. reflexivity. Qed.

Lemma no_sep_split (s : string) : no_sep s = true -> split sep s = [s].
Proof.
  induction s as [|a s IH]; simpl; [reflexivity|].
  intros H. apply andb_true_iff in H. destruct H as [Ha Hs].
  apply negb_true_iff in Ha. rewrite Ha, (IH Hs). reflexivity.
Qed.

Lemma split_app_sep (s r : string) :
  no_sep s = true ->
  split sep (s ++ String sep r)%string = s :: split sep r.
Proof.
  induction s as [|a s IH]; simpl.
  - intros _. rewrite ?Ascii.eqb_refl. reflexivity.
  - intros H. apply andb_true_iff in H. destruct H as [Ha Hs].
    apply negb_true_iff in Ha. rewrite Ha, (IH Hs). reflexivity.
Qed.

Lemma concat_cons2 (x y : string) (l : list string) :
  String.concat "/" (x :: y :: l)
  = (x ++ String sep (String.concat "/" (y :: l)))%string.
Proof. reflexivity. Qed.

Lemma split_concat (segs : list string) :
  segs <> [] -> Forall (fun s => no_sep s = true) segs ->
  split sep (String.concat "/" segs) = segs.
Proof.
  induction segs as [|x segs IH]; intros Hne HF; [contradiction|].
  inversion HF as [|? ? Hx HF']; subst. destruct segs as [|y segs].
  - simpl. apply no_sep_split. exact Hx.
  - rewrite concat_cons2, (split_app_sep _ _ Hx), IH; [reflexivity|discriminate|exact HF'].
Qed.

Lemma seg_ok_parts (s : string) :
  seg_ok s = true -> is_name s = true /\ no_sep s = true.
Proof. unfold seg_ok. intros H. apply andb_true_iff in H. exact H. Qed.

Lemma seg_ok_nonempty (s : string) : seg_ok s = true -> nonempty s = true.
Proof.
  intros H. destruct (seg_ok_parts _ H) as [Hn _]. unfold is_name in Hn.
  unfold nonempty. destruct (s =? "")%string; [discriminate|reflexivity].
Qed.

Lemma no_sep_first (a : ascii) (s : string) :
  no_sep (String a s) = true -> Ascii.eqb "/" a = false.
Proof.
  simpl. intros H. apply andb_true_iff in H. destruct H as [Ha _].
  apply negb_true_iff in Ha. rewrite Ascii.eqb_sym. exact Ha.
Qed.

Lemma seg_ok_relative (x : string) (l : list string) :
  seg_ok x = true -> isabs (String.concat "/" (x :: l)) = false.
Proof.
  intros H. destruct (seg_ok_parts _ H) as [Hn Hs].
  destruct x as [|a x]; [discriminate Hn|].
  pose proof (no_sep_first _ _ Hs) as Ha.
  unfold isabs. destruct l as [|y l]; simpl; rewrite Ha; reflexivity.
Qed.

Lemma no_sep_endswith (s : string) : no_sep s = true -> endswith sep s = false.
Proof.
  induction s as [|a s IH]; [reflexivity|].
  intros H. simpl in H. apply andb_true_iff in H. destruct H as [Ha Hs].
  apply negb_true_iff in Ha. simpl. destruct s; [exact Ha|]. apply IH. exact Hs.
Qed.

Lemma endswith_app (c : ascii) (a b : string) :
  b <> ""%string -> endswith c (a ++ b)%string = endswith c b.
Proof.
  intros Hb. induction a as [|x a IH]; [reflexivity|].
  simpl. destruct (a ++ b)%string eqn:E; [|exact IH].
  destruct a; [simpl in E; contradiction|discriminate].
Qed.

Lemma norm_comps_plain (rooted : bool) (segs : list string) :
  Forall (fun s => seg_ok s = true) segs ->
  forall stack, norm_comps rooted segs stack = rev stack ++ segs.
Proof.
  induction 1 as [|s segs Hs _ IH]; intros stack; simpl.
  - symmetry. apply app_nil_r.
  - destruct (seg_ok_parts _ Hs) as [Hn _].
    destruct (is_name_plain _ Hn) as [-> ->]. simpl.
    rewrite IH. simpl. rewrite <- app_assoc. reflexivity.
Qed.

Lemma Forall_seg_no_sep (segs : list string) :
  Forall (fun s => seg_ok s = true) segs ->
  Forall (fun s => no_sep s = true) segs.
Proof.
  intros H. eapply Forall_impl; [|exact H].
  intros s Hs. apply (seg_ok_parts _ Hs).
Qed.

Lemma split_abs_path (segs : list string) :
  segs <> [] -> Forall (fun s => seg_ok s = true) segs ->
  split sep (abs_path segs) = "" :: segs.
Proof.
  intros Hne HF. unfold abs_path. simpl. rewrite ?Ascii.eqb_refl.
  rewrite split_concat; [reflexivity|exact Hne|apply Forall_seg_no_sep; exact HF].
Qed.

Lemma normpath_abs_path (segs : list string) :
  segs <> [] -> Forall (fun s => seg_ok s = true) segs ->
  normpath (abs_path segs) = abs_path segs.
Proof.
  intros Hne HF. unfold normpath.
  rewrite (split_abs_path _ Hne HF).
  destruct segs as [|x segs]; [contradiction|].
  inversion HF as [|? ? Hx _]; subst.
  pose proof (seg_ok_relative x segs Hx) as Hrel. unfold isabs in Hrel.
  replace (abs_path (x :: segs) =? "")%string with false by reflexivity.
  replace (starts_with "/" (abs_path (x :: segs))) with true by reflexivity.
  replace (starts_with "//" (abs_path (x :: segs))) with false
    by (symmetry; exact Hrel).
  simpl andb. cbv iota.
  change (norm_comps true ("" :: x :: segs) [])
    with (norm_comps true (x :: segs) []).
  rewrite (norm_comps_plain true (x :: segs) HF []). reflexivity.
Qed.

Lemma abspath_abs_path (env : os_env) (segs : list string) :
  segs <> [] -> Forall (fun s => seg_ok s = true) segs ->
  abspath env (abs_path segs) = abs_path segs.
Proof.
  intros Hne HF. unfold abspath.
  replace (isabs (abs_path segs)) with true
    by (unfold isabs, abs_path, sep; simpl; rewrite ?Ascii.eqb_refl; reflexivity).
  apply normpath_abs_path; assumption.
Qed.

Lemma filter_nonempty_segs (segs : list string) :
  Forall (fun s => seg_ok s = true) segs -> filter nonempty segs = segs.
Proof.
  induction 1 as [|s segs Hs _ IH]; simpl; [reflexivity|].
  rewrite (seg_ok_nonempty _ Hs), IH. reflexivity.
Qed.

Lemma common_len_app (ss rs : list string) :
  common_len ss (ss ++ rs) = List.length ss.
Proof.
  induction ss as [|s ss IH]; simpl; [destruct rs; reflexivity|].
  rewrite String.eqb_refl, IH. reflexivity.
Qed.

Lemma path_join_plain (a y : string) :
  a <> ""%string -> endswith sep a = false -> seg_ok y = true ->
  path_join a y = (a ++ String sep y)%string.
Proof.
  intros Ha He Hy. unfold path_join.
  pose proof (seg_ok_relative y [] Hy) as Hrel. simpl in Hrel. rewrite Hrel.
  destruct (String.eqb_spec a ""); [contradiction|]. rewrite He. reflexivity.
Qed.

Lemma fold_join (xs : list string) :
  Forall (fun s => seg_ok s = true) xs ->
  forall a, a <> ""%string -> endswith sep a = false ->
    fold_left path_join xs a
    = match xs with
      | [] => a
      | _ :: _ => (a ++ String sep (String.concat "/" xs))%string
      end.
Proof.
  induction 1 as [|y xs Hy HF IH]; intros a Ha He; [reflexivity|].
  simpl fold_left. rewrite (path_join_plain _ _ Ha He Hy).
  destruct (seg_ok_parts _ Hy) as [Hn Hs].
  assert (Hy0 : y <> ""%string) by (destruct y; [discriminate Hn|discriminate]).
  rewrite IH.
  - destruct xs as [|z xs]; [reflexivity|].
    rewrite concat_cons2, sapp_assoc. reflexivity.
  - destruct a; [contradiction|discriminate].
  - rewrite endswith_app by discriminate.
    simpl. destruct y; [contradiction|]. apply (no_sep_endswith _ Hs).
Qed.

Lemma join_segments (rs : list string) :
  rs <> [] -> Forall (fun s => seg_ok s = true) rs ->
  match rs with
  | [] => Ret "."
  | x :: xs => Ret (fold_left path_join xs x)
  end = Ret (String.concat "/" rs).
Proof.
  intros Hne HF. destruct rs as [|x xs]; [contradiction|].
  inversion HF as [|? ? Hx HF']; subst.
  destruct (seg_ok_parts _ Hx) as [Hn Hs].
  rewrite (fold_join _ HF').
  - destruct xs; [reflexivity|]. rewrite concat_cons2. reflexivity.
  - destruct x; [discriminate Hn|discriminate].
  - apply no_sep_endswith. exact Hs.
Qed.

(** [os.path.relpath] of a path below the start directory is made of the
    components below it. *)
Lemma relpath_below (env : os_env) (ss rs : list string) :
  ss <> [] -> rs <> [] ->
  Forall (fun s => seg_ok s = true) ss ->
  Forall (fun s => seg_ok s = true) rs ->
  relpath_of env (abs_path (ss ++ rs)) (abs_path ss)
  = Ret (String.concat "/" rs).
Proof.
  intros Hs Hr HFs HFr.
  assert (Hne : ss ++ rs <> []) by (destruct ss; [contradiction|discriminate]).
  assert (HF : Forall (fun s => seg_ok s = true) (ss ++ rs))
    by (apply Forall_app; auto).
  unfold relpath_of.
  replace (abs_path (ss ++ rs) =? "")%string with false by reflexivity.
  rewrite (abspath_abs_path env _ Hs HFs), (abspath_abs_path env _ Hne HF).
  rewrite (split_abs_path _ Hs HFs), (split_abs_path _ Hne HF).
  simpl filter. rewrite (filter_nonempty_segs _ HFs), (filter_nonempty_segs _ HF).
  rewrite common_len_app, Nat.sub_diag. simpl repeat. simpl app.
  rewrite skipn_app, skipn_all, Nat.sub_diag. simpl.
  apply join_segments; assumption.
Qed.

(** *** Attaching nodes leaves the attributes of the others alone *)

Lemma same_attributes_refl (d : node) : same_attributes d d.
Proof. repeat split. Qed.

Lemma same_attributes_trans (a b c : node) :
  same_attributes a b -> same_attributes b c -> same_attributes a c.
Proof. unfold same_attributes. intuition congruence. Qed.

Lemma nth_error_update_nth_ne {A : Type} (f : A -> A) (l : list A) :
  forall i j, i <> j -> nth_error (update_nth j f l) i = nth_error l i.
Proof.
  induction l as [|x l IH]; intros [|i] [|j] H; simpl; try reflexivity;
    try contradiction.
  apply IH. congruence.
Qed.

Lemma update_attach_frame (c : node) (p : loc) :
  forall t l d, node_at t l = Some d ->
    exists d', node_at (update_at t p (fun q => attach q c)) l = Some d'
               /\ same_attributes d d'.
Proof.
  induction p as [|j p IH]; intros t l d Hd.
  - destruct l as [|i l]; simpl in *.
    + inversion Hd; subst. eexists. split; [reflexivity|]. repeat split.
    + destruct (nth_error (children t) i) as [c0|] eqn:Hc; [|discriminate].
      rewrite nth_error_app1
        by (apply nth_error_Some; congruence).
      rewrite Hc. exists d. split; [exact Hd|apply same_attributes_refl].
  - destruct l as [|i l]; simpl in *.
    + inversion Hd; subst. eexists. split; [reflexivity|]. repeat split.
    + destruct (nth_error (children t) i) as [c0|] eqn:Hc; [|discriminate].
      destruct (Nat.eq_dec i j) as [->|Hne].
      * rewrite (nth_error_update_nth _ _ _ _ Hc). apply IH. exact Hd.
      * rewrite (nth_error_update_nth_ne _ _ _ _ Hne), Hc.
        exists d. split; [exact Hd|apply same_attributes_refl].
Qed.

Lemma add_entry_frame (t t' : node) (nm : string) (top : loc) :
  _add_entry t nm top = Ret t' ->
  forall l d, node_at t l = Some d ->
    exists d', node_at t' l = Some d' /\ same_attributes d d'.
Proof.
  unfold _add_entry, attach_at. intros H l d Hd.
  destruct (List.length (split sep (rstrip sep nm)) =? 1)%nat.
  - inversion H; subst. simpl. apply update_attach_frame. exact Hd.
  - destruct (resolver_get t top _) as [[p|]|[]]; inversion H; subst; simpl;
      try (apply update_attach_frame; exact Hd).
    exists d. split; [exact Hd|apply same_attributes_refl].
Qed.

Lemma list_to_tree_frame (names : list string) :
  forall t t' top, list_to_tree t top names = Ret t' ->
    forall l d, node_at t l = Some d ->
      exists d', node_at t' l = Some d' /\ same_attributes d d'.
Proof.
  induction names as [|nm names IH]; intros t t' top H l d Hd; simpl in H.
  - inversion H; subst. exists d. split; [exact Hd|apply same_attributes_refl].
  - destruct (_add_entry t (rstrip sep nm) top) as [t1|e] eqn:E; [|discriminate].
    simpl in H.
    destruct (add_entry_frame _ _ _ _ E _ _ Hd) as (d1 & Hd1 & Hs1).
    destruct (IH _ _ _ H _ _ Hd1) as (d2 & Hd2 & Hs2).
    exists d2. split; [exact Hd2|]. eapply same_attributes_trans; eassumption.
Qed.

Lemma attach_at_new (t : node) (parent_ : loc) (p c : node) :
  node_at t parent_ = Some p ->
  node_at (fst (attach_at t parent_ c)) (snd (attach_at t parent_ c)) = Some c.
Proof.
  intros Hp. unfold attach_at, obj. rewrite Hp. simpl.
  rewrite node_at_app, (node_at_update_at _ _ _ _ Hp). simpl.
  rewrite nth_error_app2 by lia. rewrite Nat.sub_diag. reflexivity.
Qed.

(** C5 fails on the code: in a catalog built with the storage path
    "/mnt/usb1", the Dir "music" directly under the Storage stores the
    relative path "music", while the File "song.mp3" inside it stores
    "usb1/music/song.mp3".  [file_node] puts the storage's name in front of
    the path relative to the storage root, its sibling [dir_node] does not:
    the two kinds of node do not express their paths in the same form. *)
Theorem dir_relpath_lacks_storage_name :
  exists t1 d t2 f,
    dir_node example_env (attach new_top_node usb1_empty) "music"
             "/mnt/usb1/music" [0%nat] "/mnt/usb1"
      = Ret (t1, d) /\
    file_node default_noder example_env t1 "song.mp3"
              "/mnt/usb1/music/song.mp3" d "/mnt/usb1"
      = Ret (t2, Some f) /\
    type (obj t2 d) = TYPE_DIR /\
    relpath (obj t2 d) = Some "music" /\
    type (obj t2 f) = TYPE_FILE /\
    relpath (obj t2 f) = Some "usb1/music/song.mp3".
Proof.
  do 4 eexists. split; [reflexivity|]. split; [reflexivity|].
  repeat split.
Qed.

(** X25: for a normalised absolute path below the storage root (the storage
    path given without a trailing separator), a Dir node stores the path
    relative to the storage root, without the storage's own name, and a
    File node that [file_node] returns stores the storage directory's base
    name joined with that same relative path; neither depends on the
    parent node. *)
Theorem stored_relpaths (self : noder) (env : os_env) (t : node)
    (parent_ : loc) (p : node) (nm : string) (ss rs : list string) :
  node_at t parent_ = Some p ->
  ss <> [] -> rs <> [] ->
  Forall (fun s => seg_ok s = true) ss ->
  Forall (fun s => seg_ok s = true) rs ->
  (exists t' l d,
      dir_node env t nm (abs_path (ss ++ rs)) parent_ (abs_path ss)
        = Ret (t', l) /\
      node_at t' l = Some d /\ type d = TYPE_DIR /\
      relpath d = Some (String.concat "/" rs)) /\
  (forall t' l,
      file_node self env t nm (abs_path (ss ++ rs)) parent_ (abs_path ss)
        = Ret (t', Some l) ->
      exists d,
        node_at t' l = Some d /\ type d = TYPE_FILE /\
        relpath d
          = Some (last ss "" ++ String sep (String.concat "/" rs))%string).
Proof.
  intros Hp Hs Hr HFs HFr.
  assert (Hne : ss ++ rs <> []) by (destruct ss; [contradiction|discriminate]).
  assert (HF : Forall (fun s => seg_ok s = true) (ss ++ rs))
    by (apply Forall_app; auto).
  assert (Hrel : relpath_of env (abspath env (abs_path (ss ++ rs))) (abs_path ss)
                 = Ret (String.concat "/" rs)).
  { rewrite (abspath_abs_path env _ Hne HF). apply relpath_below; assumption. }
  split.
  - unfold dir_node, dir_relpath. rewrite Hrel. simpl.
    destruct (attach_at t parent_
                (_node nm TYPE_DIR (String.concat "/" rs) PyNone None))
      as [t' l] eqn:E.
    exists t', l, (_node nm TYPE_DIR (String.concat "/" rs) PyNone None).
    split; [reflexivity|]. split; [|split; reflexivity].
    pose proof (attach_at_new t parent_ p
                  (_node nm TYPE_DIR (String.concat "/" rs) PyNone None) Hp) as Hnew.
    rewrite E in Hnew. exact Hnew.
  - intros t' l. unfold file_node, file_relpath. rewrite Hrel.
    destruct (path_exists env (abs_path (ss ++ rs))); simpl; [|discriminate].
    destruct (lstat_size env _) as [st|]; [|discriminate].
    simpl.
    assert (Hbase : path_join (basename (abs_path ss)) (String.concat "/" rs)
                    = (last ss "" ++ String sep (String.concat "/" rs))%string).
    { unfold basename. rewrite (split_abs_path _ Hs HFs).
      assert (Hlast : last ("" :: ss) ""%string = last ss ""%string)
        by (destruct ss; [contradiction|reflexivity]).
      rewrite Hlast.
      assert (Hok : seg_ok (last ss "") = true).
      { rewrite Forall_forall in HFs. apply HFs.
        destruct (exists_last Hs) as (ss' & z & ->).
        rewrite last_last. apply in_or_app. right. left. reflexivity. }
      destruct (seg_ok_parts _ Hok) as [Hn Hsep].
      unfold path_join.
      destruct rs as [|r rs]; [contradiction|].
      inversion HFr as [|? ? Hr0 _]; subst.
      rewrite (seg_ok_relative r rs Hr0).
      destruct (String.eqb_spec (last ss "") "") as [E|_];
        [rewrite E in Hn; discriminate Hn|].
      rewrite (no_sep_endswith _ Hsep). reflexivity. }
    rewrite Hbase.
    set (c := _node nm TYPE_FILE
                (last ss "" ++ String sep (String.concat "/" rs))%string
                (PyInt st)
                (if hash self then md5sum env (abspath env (abs_path (ss ++ rs)))
                 else None)).
    pose proof (attach_at_new t parent_ p c Hp) as Hnew.
    unfold attach_at in Hnew |- *. simpl fst in Hnew. simpl snd in Hnew.
    match goal with
    | |- context [if (arc self && ?x)%bool then _ else _] =>
        destruct (arc self && x)%bool
    end.
    + match goal with
      | |- context [list_to_tree ?t1 ?n1 ?x] =>
          destruct (list_to_tree t1 n1 x) as [t2|e] eqn:El
      end; simpl; [|discriminate].
      intros H. inversion H; subst.
      destruct (list_to_tree_frame _ _ _ _ El _ _ Hnew)
        as (d' & Hd' & _ & Hty & Hrp & _).
      exists d'. split; [exact Hd'|]. split; [rewrite Hty|rewrite Hrp]; reflexivity.
    + intros H. inversion H; subst. exists c. split; [exact Hnew|].
      split; reflexivity.
Qed.

Lemma stored_relpaths_witness :
  (exists t' l d,
      dir_node example_env usb1_empty "music" (abs_path (["mnt"; "usb1"] ++ ["music"]))
               [] (abs_path ["mnt"; "usb1"])
        = Ret (t', l) /\
      node_at t' l = Some d /\ type d = TYPE_DIR /\
      relpath d = Some (String.concat "/" ["music"])) /\
  (forall t' l,
      file_node default_noder example_env usb1_empty "music"
                (abs_path (["mnt"; "usb1"] ++ ["music"])) []
                (abs_path ["mnt"; "usb1"])
        = Ret (t', Some l) ->
      exists d,
        node_at t' l = Some d /\ type d = TYPE_FILE /\
        relpath d
          = Some (last ["mnt"; "usb1"] ""
                  ++ String sep (String.concat "/" ["music"]))%string).
Proof.
  apply (stored_relpaths default_noder example_env usb1_empty [] usb1_empty
           "music" ["mnt"; "usb1"] ["music"]);
    [reflexivity | discriminate | discriminate
    | repeat constructor | repeat constructor].
Defined.

Example file_node_song :
  exists t,
    file_node default_noder example_env usb1 "song.mp3"
              "/mnt/usb1/music/song.mp3" [0%nat] "/mnt/usb1"
      = Ret (t, Some [0; 2]%nat) /\
    relpath (obj t [0; 2]%nat) = Some "usb1/music/song.mp3".
Proof. eexists. split; reflexivity. Qed.

(** * Further properties *)

(** ** The aggregator: what it leaves alone and when it fails *)

(** X1: [rec_size] changes nothing but size fields, and never the size of a
    File: names, types, paths, digests, the shape of the tree and the File
    sizes are the same after the call as before. *)
Theorem rec_size_only_sizes (n n' : node) (v : pyval) :
  rec_size n = Ret (n', v) -> unsized n' = unsized n.
Proof. exact (rec_size_unsized n n' v). Qed.

Lemma rec_size_only_sizes_witness : unsized usb1_sized = unsized usb1.
Proof. apply (rec_size_only_sizes usb1 usb1_sized (PyInt 0)). reflexivity. Defined.

Lemma rec_size_file (c : node) :
  type c = TYPE_FILE -> rec_size c = (v <- getattr (size c) ;; Ret (c, v)).
Proof.
  intros Hc. rewrite rec_size_unfold, Hc. reflexivity.
Qed.

Lemma rec_children_dir_none (l : list node) :
  Forall (fun c => type c = TYPE_FILE /\ size c <> None) l ->
  Exists (fun c => size c = Some PyNone) l ->
  forall acc, rec_children TYPE_DIR l acc = Raise TypeError.
Proof.
  induction 1 as [|c l [Hty Hsz] _ IH]; intros Hex acc.
  - inversion Hex.
  - simpl. rewrite (rec_size_file _ Hty).
    destruct (size c) as [[|z]|] eqn:Es; try contradiction; simpl.
    + reflexivity.
    + rewrite IH; [reflexivity|].
      inversion Hex as [? ? Hbad|]; subst; [congruence|assumption].
Qed.

(** X2: a Dir whose children are Files, one of them with size [None], makes
    [rec_size] raise [TypeError]: [None] cannot be added to the total. *)
Theorem rec_size_dir_none_size (n : node) :
  type n = TYPE_DIR ->
  Forall (fun c => type c = TYPE_FILE /\ size c <> None) (children n) ->
  Exists (fun c => size c = Some PyNone) (children n) ->
  rec_size n = Raise TypeError.
Proof.
  intros Hty HF Hex. rewrite rec_size_unfold, Hty.
  replace (TYPE_DIR =? TYPE_FILE)%string with false by reflexivity.
  rewrite (rec_children_dir_none _ HF Hex). reflexivity.
Qed.

Lemma rec_size_dir_none_size_witness :
  rec_size (attach (_node "d" TYPE_DIR "d" PyNone None)
                   (_node "f" TYPE_FILE "x/d/f" PyNone None))
  = Raise TypeError.
Proof.
  apply rec_size_dir_none_size; [reflexivity| |].
  - repeat constructor. discriminate.
  - constructor. reflexivity.
Defined.

Lemma rec_children_storage_files (l : list node) :
  Forall (fun c => type c = TYPE_FILE /\ size c <> None) l ->
  forall acc, rec_children TYPE_STORAGE l acc = Ret (l, acc).
Proof.
  induction 1 as [|c l [Hty Hsz] _ IH]; intros acc; [reflexivity|].
  simpl. rewrite (rec_size_file _ Hty).
  destruct (size c) as [w|]; [|contradiction]. simpl.
  rewrite IH. reflexivity.
Qed.

(** X3: directly under a Storage the same Files do no harm: their sizes are
    read and dropped, whatever they are, the children stay as they were and
    the Storage gets size 0. *)
Theorem rec_size_storage_of_files (n : node) :
  type n = TYPE_STORAGE ->
  Forall (fun c => type c = TYPE_FILE /\ size c <> None) (children n) ->
  rec_size n = Ret (set_size n (PyInt 0), PyInt 0).
Proof.
  intros Hty HF. rewrite rec_size_unfold, Hty.
  replace (TYPE_STORAGE =? TYPE_FILE)%string with false by reflexivity.
  rewrite (rec_children_storage_files _ HF). reflexivity.
Qed.

Lemma rec_size_storage_of_files_witness :
  rec_size (attach usb1_empty (_node "f" TYPE_FILE "usb1/f" PyNone None))
  = Ret (set_size (attach usb1_empty (_node "f" TYPE_FILE "usb1/f" PyNone None))
                  (PyInt 0), PyInt 0).
Proof.
  apply rec_size_storage_of_files; [reflexivity|].
  repeat constructor. discriminate.
Defined.

(** ** Search: letter case, and the top node *)

(** X4: search ignores the letter case of the term: two terms that agree
    once lower-cased give the same outcome, the same nodes in the same
    order. *)
Theorem find_name_case_insensitive (self : noder) (t : node) (root : loc)
    (key1 key2 : string) :
  lower key1 = lower key2 ->
  find_name self t root key1 = find_name self t root key2.
Proof.
  intros H. unfold find_name, findall.
  assert (E : forall l, _find_name key1 (obj t l) = _find_name key2 (obj t l))
    by (intros l; unfold _find_name; rewrite H; reflexivity).
  rewrite (filter_ext _ _ E). reflexivity.
Qed.

Lemma find_name_case_insensitive_witness :
  find_name default_noder catalog [] "MP3" = find_name default_noder catalog [] "mp3".
Proof. apply find_name_case_insensitive. reflexivity. Defined.

Lemma preorder_locs_head (n : node) (l : loc) :
  exists rest, preorder_locs n l = l :: rest.
Proof. destruct n. simpl. eauto. Qed.

(** X5: when the search starts at a Top node whose own name contains the
    term, [find_name] raises [AttributeError]: the Top node is among the
    matches and has no relpath to report. *)
Theorem find_name_top_matches (self : noder) (t : node) (root : loc)
    (key : string) :
  type (obj t root) = TYPE_TOP ->
  relpath (obj t root) = None ->
  _find_name key (obj t root) = true ->
  find_name self t root key = Raise AttributeError.
Proof.
  intros Hty Hrp Hm. unfold find_name, findall.
  destruct (preorder_locs_head (obj t root) root) as [rest ->].
  simpl filter. rewrite Hm. simpl find_name_paths. rewrite Hty.
  replace (TYPE_TOP =? TYPE_STORAGE)%string with false by reflexivity.
  unfold _print_node, deref. unfold obj in Hty, Hrp.
  destruct (node_at t root) as [d|] eqn:Hd; [|reflexivity].
  simpl. rewrite Hty.
  replace (TYPE_TOP =? TYPE_TOP)%string with true by reflexivity.
  simpl. unfold obj. rewrite Hd, Hrp. reflexivity.
Qed.

Lemma find_name_top_matches_witness :
  find_name default_noder catalog [] "o" = Raise AttributeError.
Proof. apply find_name_top_matches; reflexivity. Defined.

(** ** The sorter: the order of the result *)

Lemma StronglySorted_app {A : Type} (R : A -> A -> Prop) (l1 l2 : list A) :
  StronglySorted R l1 -> StronglySorted R l2 ->
  (forall x y, In x l1 -> In y l2 -> R x y) ->
  StronglySorted R (l1 ++ l2).
Proof.
  induction 1 as [|a l1 H1 IH Ha]; intros H2 Hx; simpl; [exact H2|].
  constructor.
  - apply IH; [exact H2|]. intros x y Hin. apply Hx. right. exact Hin.
  - apply Forall_app. split; [exact Ha|].
    apply Forall_forall. intros y Hy. apply Hx; [left; reflexivity|exact Hy].
Qed.

Lemma StronglySorted_rev {A : Type} (R : A -> A -> Prop) (l : list A) :
  StronglySorted R l -> StronglySorted (fun a b => R b a) (rev l).
Proof.
  induction 1 as [|a l H IH Ha]; simpl; [constructor|].
  apply StronglySorted_app; [exact IH|repeat constructor|].
  intros x y Hx [<-|[]]. rewrite Forall_forall in Ha. apply Ha.
  apply in_rev. exact Hx.
Qed.

Lemma StronglySorted_after {A : Type} (R : A -> A -> Prop) (l1 l2 : list A)
    (x : A) :
  StronglySorted R (l1 ++ x :: l2) -> Forall (R x) l2.
Proof.
  induction l1 as [|a l1 IH]; simpl; intros H;
    inversion H; subst; [assumption|auto].
Qed.

Lemma StronglySorted_weaken {A : Type} (R R' : A -> A -> Prop) (l : list A) :
  (forall a b, R a b -> R' a b) -> StronglySorted R l -> StronglySorted R' l.
Proof.
  intros HR. induction 1 as [|a l H IH Ha]; constructor; [exact IH|].
  eapply Forall_impl; [|exact Ha]. intros b. apply HR.
Qed.

Lemma name_policy_sorted (self : noder) (items : list node) :
  sortsize self = false ->
  StronglySorted (fun a b => fs_ltb (_sort_fs b) (_sort_fs a) = false)
                 (_sort_tree self items).
Proof.
  intros Hs. unfold _sort_tree, _sort_tree_on. rewrite Hs.
  apply (stable_sort_sorted fs_ltb _sort_fs fs_ltb_irrefl fs_ltb_trans
           fs_ltb_total).
Qed.

Lemma size_policy_sorted (self : noder) (items : list node) :
  sortsize self = true ->
  StronglySorted (fun a b => _sort_size b <= _sort_size a)
                 (_sort_tree self items).
Proof.
  intros Hs. unfold _sort_tree, _sort_tree_on, py_sorted. rewrite Hs.
  pose proof (stable_sort_sorted Z.ltb _sort_size Zltb_irrefl Zltb_trans
                Zltb_total (rev items)) as H.
  apply StronglySorted_rev in H.
  eapply StronglySorted_weaken; [|exact H].
  intros a b Hab. unfold key_le in Hab. apply Z.ltb_ge in Hab. exact Hab.
Qed.

(** X6: the result of [_sort_tree] is in order.  Under the name policy no
    node is followed by one with a smaller (type, name) key; under the size
    policy no node is followed by one with a larger size key. *)
Theorem sort_tree_ordered (self : noder) (items : list node) :
  (sortsize self = false ->
   StronglySorted (fun a b => fs_ltb (_sort_fs b) (_sort_fs a) = false)
                  (_sort_tree self items)) /\
  (sortsize self = true ->
   StronglySorted (fun a b => _sort_size b <= _sort_size a)
                  (_sort_tree self items)).
Proof.
  split; [apply name_policy_sorted|apply size_policy_sorted].
Qed.

Lemma sort_tree_ordered_witness :
  StronglySorted (fun a b => fs_ltb (_sort_fs b) (_sort_fs a) = false)
                 (_sort_tree default_noder [song_mp3; dir_a; cover_jpg]) /\
  StronglySorted (fun a b => _sort_size b <= _sort_size a)
                 (_sort_tree (Noder true false true false)
                             [cover_jpg; dir_a; song_mp3]).
Proof.
  split.
  - apply (sort_tree_ordered default_noder [song_mp3; dir_a; cover_jpg]).
    reflexivity.
  - apply (sort_tree_ordered (Noder true false true false)
             [cover_jpg; dir_a; song_mp3]).
    reflexivity.
Defined.

(** X7: under the name policy directories are listed before files: in the
    result of [_sort_tree] no Dir comes after a File, whatever their
    names. *)
Theorem sort_tree_dirs_first (self : noder) (items l1 l2 : list node)
    (f : node) :
  sortsize self = false ->
  _sort_tree self items = l1 ++ f :: l2 ->
  type f = TYPE_FILE ->
  Forall (fun d => type d <> TYPE_DIR) l2.
Proof.
  intros Hs Hsplit Hf.
  pose proof (name_policy_sorted self items Hs) as H.
  rewrite Hsplit in H. apply StronglySorted_after in H.
  eapply Forall_impl; [|exact H].
  intros d Hd Hdir. unfold fs_ltb, _sort_fs in Hd. simpl in Hd.
  rewrite Hdir, Hf in Hd. discriminate Hd.
Qed.

Lemma sort_tree_dirs_first_witness :
  Forall (fun d => type d <> TYPE_DIR) [song_mp3].
Proof.
  apply (sort_tree_dirs_first default_noder [song_mp3; dir_a; cover_jpg]
           [dir_a] [song_mp3] cover_jpg); reflexivity.
Defined.

(** ** The archive flattener: plain members, nesting, and what it keeps *)

Lemma rstrip_idem (c : ascii) (s : string) :
  rstrip c (rstrip c s) = rstrip c s.
Proof.
  induction s as [|a s IH]; [reflexivity|].
  simpl. destruct (rstrip c s) as [|b r] eqn:E.
  - destruct (Ascii.eqb a c) eqn:Ea; [reflexivity|].
    simpl. rewrite Ea. reflexivity.
  - simpl in IH |- *. rewrite IH. reflexivity.
Qed.

Lemma rstrip_no_trailing (c : ascii) (s : string) :
  endswith c s = false -> rstrip c s = s.
Proof.
  induction s as [|a s IH]; [reflexivity|].
  simpl. destruct s as [|b s].
  - intros ->. reflexivity.
  - intros H. rewrite (IH H). reflexivity.
Qed.

Lemma seg_ok_rstrip (s : string) : seg_ok s = true -> rstrip sep s = s.
Proof.
  intros H. apply rstrip_no_trailing. apply no_sep_endswith.
  apply (seg_ok_parts _ H).
Qed.

(** X8: a member path without a directory part, with or without trailing
    separators, becomes one Archive child of the archive node, named by the
    path without the trailing separators, which is also its relpath. *)
Theorem list_to_tree_plain_member (t : node) (top : loc) (topn : node)
    (nm : string) :
  node_at t top = Some topn ->
  no_sep (rstrip sep nm) = true ->
  exists t',
    list_to_tree t top [nm] = Ret t' /\
    node_at t' top
      = Some (set_children topn
                (children topn
                 ++ [archive_node (rstrip sep nm) (rstrip sep nm) (name topn)])).
Proof.
  intros Htop Hns. simpl. unfold _add_entry.
  rewrite rstrip_idem, (no_sep_split _ Hns). simpl.
  eexists. split; [reflexivity|].
  unfold obj. rewrite Htop.
  rewrite (node_at_update_at _ _ _ _ Htop). reflexivity.
Qed.

Lemma list_to_tree_plain_member_witness :
  exists t',
    list_to_tree catalog_zip photos_zip_loc ["readme.txt//"] = Ret t' /\
    node_at t' photos_zip_loc
      = Some (set_children photos_zip
                (children photos_zip
                 ++ [archive_node (rstrip sep "readme.txt//")
                       (rstrip sep "readme.txt//") (name photos_zip)])).
Proof.
  apply (list_to_tree_plain_member catalog_zip photos_zip_loc photos_zip
           "readme.txt//"); reflexivity.
Defined.

Lemma find_child_app_last (s : string) (cs : list node) (c : node) :
  forall k, find_child s cs k = None -> name c = s ->
            find_child s (cs ++ [c]) k = Some (k + List.length cs)%nat.
Proof.
  induction cs as [|x cs IH]; intros k Hn Hc; simpl in *.
  - rewrite Hc, String.eqb_refl. f_equal. lia.
  - destruct (name x =? s)%string; [discriminate|].
    rewrite (IH _ Hn Hc). f_equal. lia.
Qed.

Lemma split_two (a b : string) :
  seg_ok a = true -> seg_ok b = true ->
  split sep (a ++ String sep b)%string = [a; b].
Proof.
  intros Ha Hb. destruct (seg_ok_parts _ Ha) as [_ Hsa].
  destruct (seg_ok_parts _ Hb) as [_ Hsb].
  rewrite (split_app_sep _ _ Hsa), (no_sep_split _ Hsb). reflexivity.
Qed.

Lemma rstrip_two (a b : string) :
  seg_ok b = true ->
  rstrip sep (a ++ String sep b)%string = (a ++ String sep b)%string.
Proof.
  intros Hb. destruct (seg_ok_parts _ Hb) as [Hn Hsb].
  apply rstrip_no_trailing. rewrite endswith_app by discriminate.
  destruct b as [|x b]; [discriminate Hn|].
  apply (no_sep_endswith _ Hsb).
Qed.

(** X9: listing a directory before one of its entries builds the nesting:
    after the members [a] and [a/b], in this order, under an archive node
    without a child [a], the new child [a] holds the Archive child [b],
    whose relpath is [a/b]. *)
Theorem list_to_tree_nests (t : node) (top : loc) (topn : node)
    (a b : string) :
  node_at t top = Some topn ->
  seg_ok a = true -> seg_ok b = true ->
  find_child a (children topn) 0 = None ->
  exists t2,
    list_to_tree t top [a; (a ++ String sep b)%string] = Ret t2 /\
    node_at t2 (top ++ [List.length (children topn)])
      = Some (attach (archive_node a a (name topn))
                     (archive_node b (a ++ String sep b)%string (name topn))).
Proof.
  intros Htop Ha Hb Hfree.
  destruct (seg_ok_parts _ Ha) as [Hna Hsa].
  set (A := archive_node a a (name topn)).
  set (t1 := update_at t top (fun pn => attach pn A)).
  assert (Htop1 : node_at t1 top = Some (attach topn A))
    by (exact (node_at_update_at (fun pn => attach pn A) top t topn Htop)).
  assert (HA : node_at t1 (top ++ [List.length (children topn)]) = Some A).
  { eapply node_at_child; [exact Htop1|]. simpl.
    rewrite nth_error_app2 by lia. rewrite Nat.sub_diag. reflexivity. }
  assert (E1 : _add_entry t (rstrip sep a) top = Ret t1).
  { unfold _add_entry. rewrite !(seg_ok_rstrip _ Ha), (no_sep_split _ Hsa).
    simpl. unfold obj. rewrite Htop. reflexivity. }
  assert (Hget : resolver_get t1 top a
                 = Ret (Some (top ++ [List.length (children topn)]))).
  { unfold resolver_get, resolver_start.
    pose proof (seg_ok_relative a [] Ha) as Hrel.
    change (starts_with "/" a = false) in Hrel.
    rewrite Hrel, (no_sep_split _ Hsa). simpl.
    unfold get_step. destruct (is_name_plain _ Hna) as [-> ->].
    simpl. rewrite Htop1. simpl.
    rewrite (find_child_app_last a (children topn) A 0 Hfree eq_refl).
    reflexivity. }
  simpl list_to_tree. rewrite E1. simpl bind.
  unfold _add_entry. rewrite !(rstrip_two a b Hb), (split_two a b Ha Hb).
  simpl. rewrite Hget. simpl.
  eexists. split; [reflexivity|].
  rewrite (node_at_update_at _ _ _ _ HA).
  unfold obj. rewrite Htop1. reflexivity.
Qed.

Lemma list_to_tree_nests_witness :
  exists t2,
    list_to_tree catalog_zip photos_zip_loc ["a"; ("a" ++ String sep "b.jpg")%string]
      = Ret t2 /\
    node_at t2 (photos_zip_loc ++ [List.length (children photos_zip)])
      = Some (attach (archive_node "a" "a" (name photos_zip))
                     (archive_node "b.jpg" ("a" ++ String sep "b.jpg")%string
                                   (name photos_zip))).
Proof.
  apply (list_to_tree_nests catalog_zip photos_zip_loc photos_zip "a" "b.jpg");
    reflexivity.
Defined.

(** X10: the flattener only adds nodes: whenever [list_to_tree] returns,
    every node of the tree before the call is still at its place, with its
    name, type, relpath, size and digest unchanged. *)
Theorem list_to_tree_only_adds (t t' : node) (top : loc) (names : list string)
    (l : loc) (d : node) :
  list_to_tree t top names = Ret t' ->
  node_at t l = Some d ->
  exists d', node_at t' l = Some d' /\ same_attributes d d'.
Proof. intros H Hd. eapply list_to_tree_frame; eassumption. Qed.

Lemma list_to_tree_only_adds_witness :
  exists d',
    node_at (update_at catalog_zip photos_zip_loc
               (fun p => attach p (archive_node "b.jpg" "a/b.jpg" "photos.zip")))
            [0%nat] = Some d'
    /\ same_attributes (attach (storage_node "usb1" 2000 5000 None 1500000000)
                               photos_zip) d'.
Proof.
  apply (list_to_tree_only_adds catalog_zip _ photos_zip_loc ["a/b.jpg"] [0%nat]);
    reflexivity.
Defined.

(** ** Building File and Dir nodes: failures, placement, edge paths *)

(** X11: [file_node] gives up, returning [None], exactly when the path does
    not exist or cannot be stat'ed, and then the tree is left as it was. *)
Theorem file_node_unavailable (self : noder) (env : os_env) (t t' : node)
    (nm path : string) (parent_ : loc) (storagepath : string) :
  file_node self env t nm path parent_ storagepath = Ret (t', None) <->
  t' = t /\ (path_exists env path = false
             \/ lstat_size env (abspath env path) = None).
Proof.
  unfold file_node. split.
  - destruct (path_exists env path); simpl.
    + destruct (lstat_size env (abspath env path)) as [st|].
      * destruct (file_relpath env path storagepath) as [rp|e]; simpl;
          [|discriminate].
        unfold attach_at.
        match goal with
        | |- context [if ?b then _ else _] => destruct b
        end; [|discriminate].
        match goal with
        | |- context [list_to_tree ?t1 ?n1 ?x] =>
            destruct (list_to_tree t1 n1 x)
        end; simpl; discriminate.
      * intros H. inversion H. auto.
    + intros H. inversion H. auto.
  - intros [-> [H|H]].
    + rewrite H. reflexivity.
    + destruct (path_exists env path); simpl; [|reflexivity].
      rewrite H. reflexivity.
Qed.

Lemma file_node_unavailable_witness :
  file_node default_noder
    (OsEnv "/" (fun _ => false) (fun _ => None) (fun _ => None) [] (fun _ => []))
    usb1 "gone" "/mnt/usb1/gone" [] "/mnt/usb1"
  = Ret (usb1, None).
Proof. apply file_node_unavailable. split; [reflexivity|left; reflexivity]. Defined.

(** X12: a new Dir node becomes the last child of its parent, named as
    asked, without children and with size [None] until the aggregator
    runs. *)
Theorem dir_node_appends (env : os_env) (t t' : node) (nm path : string)
    (parent_ l : loc) (storagepath : string) (p : node) :
  node_at t parent_ = Some p ->
  dir_node env t nm path parent_ storagepath = Ret (t', l) ->
  l = parent_ ++ [List.length (children p)] /\
  exists c,
    node_at t' parent_ = Some (set_children p (children p ++ [c])) /\
    node_at t' l = Some c /\
    name c = nm /\ type c = TYPE_DIR /\ size c = Some PyNone /\
    md5 c = Some None /\ children c = [].
Proof.
  intros Hp. unfold dir_node.
  destruct (dir_relpath env path storagepath) as [rp|e]; simpl; [|discriminate].
  intros H. inversion H; subst. unfold obj. rewrite Hp. split; [reflexivity|].
  exists (_node nm TYPE_DIR rp PyNone None).
  split; [exact (node_at_update_at _ _ _ _ Hp)|].
  split; [|repeat split].
  pose proof (attach_at_new t parent_ p (_node nm TYPE_DIR rp PyNone None) Hp) as Hn.
  unfold attach_at, obj in Hn. rewrite Hp in Hn. exact Hn.
Qed.

Lemma dir_node_appends_witness :
  [1%nat] = [] ++ [List.length (children usb1)] /\
  exists c,
    node_at (attach usb1 (_node "docs" TYPE_DIR "docs" PyNone None)) []
      = Some (set_children usb1 (children usb1 ++ [c])) /\
    node_at (attach usb1 (_node "docs" TYPE_DIR "docs" PyNone None)) [1%nat]
      = Some c /\
    name c = "docs" /\ type c = TYPE_DIR /\ size c = Some PyNone /\
    md5 c = Some None /\ children c = [].
Proof.
  apply (dir_node_appends example_env usb1 _ "docs" "/mnt/usb1/docs" [] [1%nat]
           "/mnt/usb1" usb1); reflexivity.
Defined.

(** X13: a File node that [file_node] returns is the last child of its
    parent and records the name asked for, the stat size, and the digest
    only when hashing is on. *)
Theorem file_node_records (self : noder) (env : os_env) (t t' : node)
    (nm path : string) (parent_ l : loc) (storagepath : string) (p : node) :
  node_at t parent_ = Some p ->
  file_node self env t nm path parent_ storagepath = Ret (t', Some l) ->
  l = parent_ ++ [List.length (children p)] /\
  exists st d,
    lstat_size env (abspath env path) = Some st /\
    node_at t' l = Some d /\
    name d = nm /\ type d = TYPE_FILE /\ size d = Some (PyInt st) /\
    md5 d = Some (if hash self then md5sum env (abspath env path) else None).
Proof.
  intros Hp. unfold file_node.
  destruct (path_exists env path); simpl; [|discriminate].
  destruct (lstat_size env (abspath env path)) as [st|]; [|discriminate].
  destruct (file_relpath env path storagepath) as [rp|e]; simpl; [|discriminate].
  set (c := _node nm TYPE_FILE rp (PyInt st)
              (if hash self then md5sum env (abspath env path) else None)).
  pose proof (attach_at_new t parent_ p c Hp) as Hnew.
  unfold attach_at in Hnew |- *. simpl fst in Hnew. simpl snd in Hnew.
  unfold obj in Hnew |- *. rewrite Hp in Hnew |- *.
  match goal with
  | |- context [if ?b then _ else _] => destruct b
  end.
  - match goal with
    | |- context [list_to_tree ?t1 ?n1 ?x] =>
        destruct (list_to_tree t1 n1 x) as [t2|e] eqn:El
    end; simpl; [|discriminate].
    intros H. inversion H; subst. split; [reflexivity|].
    destruct (list_to_tree_frame _ _ _ _ El _ _ Hnew)
      as (d' & Hd' & Hnm & Hty & _ & Hsz & Hmd).
    exists st, d'. rewrite Hnm, Hty, Hsz, Hmd. repeat split. exact Hd'.
  - intros H. inversion H; subst. split; [reflexivity|].
    exists st, c. repeat split. exact Hnew.
Qed.

Lemma file_node_records_witness :
  [0; 2]%nat = [0%nat] ++ [List.length (children music)] /\
  exists st d,
    lstat_size example_env (abspath example_env "/mnt/usb1/music/a.zip") = Some st /\
    node_at (update_at usb1 [0%nat]
               (fun p => attach p (_node "a.zip" TYPE_FILE "usb1/music/a.zip"
                                         (PyInt 1000) None)))
            [0; 2]%nat = Some d /\
    name d = "a.zip" /\ type d = TYPE_FILE /\ size d = Some (PyInt st) /\
    md5 d = Some (if hash (Noder true false false true)
                  then md5sum example_env
                         (abspath example_env "/mnt/usb1/music/a.zip")
                  else None).
Proof.
  apply (file_node_records (Noder true false false true) example_env usb1 _
           "a.zip" "/mnt/usb1/music/a.zip" [0%nat] [0; 2]%nat "/mnt/usb1" music);
    reflexivity.
Defined.

Lemma common_len_refl (ss : list string) : common_len ss ss = List.length ss.
Proof.
  induction ss as [|s ss IH]; simpl; [reflexivity|].
  rewrite String.eqb_refl, IH. reflexivity.
Qed.

(** X14: a Dir node made for the storage root itself, given as a normalised
    absolute path, stores the relative path ["."]. *)
Theorem dir_node_storage_root (env : os_env) (t : node) (nm : string)
    (parent_ : loc) (p : node) (ss : list string) :
  node_at t parent_ = Some p ->
  ss <> [] ->
  Forall (fun s => seg_ok s = true) ss ->
  exists t' l d,
    dir_node env t nm (abs_path ss) parent_ (abs_path ss) = Ret (t', l) /\
    node_at t' l = Some d /\
    type d = TYPE_DIR /\ relpath d = Some ".".
Proof.
  intros Hp Hs HFs.
  assert (Hrel : relpath_of env (abspath env (abs_path ss)) (abs_path ss)
                 = Ret ".").
  { unfold relpath_of. rewrite !(abspath_abs_path env _ Hs HFs).
    replace (abs_path ss =? "")%string with false by reflexivity.
    rewrite (split_abs_path _ Hs HFs). simpl filter.
    rewrite (filter_nonempty_segs _ HFs), common_len_refl, Nat.sub_diag.
    rewrite skipn_all. reflexivity. }
  unfold dir_node, dir_relpath. rewrite Hrel. simpl.
  destruct (attach_at t parent_ (_node nm TYPE_DIR "." PyNone None))
    as [t' l] eqn:E.
  exists t', l, (_node nm TYPE_DIR "." PyNone None).
  split; [reflexivity|]. split; [|split; reflexivity].
  pose proof (attach_at_new t parent_ p (_node nm TYPE_DIR "." PyNone None) Hp)
    as Hnew.
  rewrite E in Hnew. exact Hnew.
Qed.

Lemma dir_node_storage_root_witness :
  exists t' l d,
    dir_node example_env (attach new_top_node usb1_empty) "usb1"
             (abs_path ["mnt"; "usb1"]) [0%nat] (abs_path ["mnt"; "usb1"])
      = Ret (t', l) /\
    node_at t' l = Some d /\
    type d = TYPE_DIR /\ relpath d = Some ".".
Proof.
  apply (dir_node_storage_root example_env (attach new_top_node usb1_empty)
           "usb1" [0%nat] usb1_empty ["mnt"; "usb1"]);
    [reflexivity|discriminate|repeat constructor].
Defined.

Lemma split_trailing (s : string) :
  split sep (s ++ "/")%string = split sep s ++ [""].
Proof.
  induction s as [|a s IH]; [reflexivity|].
  simpl. rewrite IH. destruct (Ascii.eqb a sep); [reflexivity|].
  destruct (split sep s) as [|w ws] eqn:E;
    [exfalso; exact (split_nonempty _ _ E)|reflexivity].
Qed.

Lemma norm_comps_app (rooted : bool) (segs rest : list string) :
  Forall (fun s => seg_ok s = true) segs ->
  forall stack,
    norm_comps rooted (segs ++ rest) stack
    = norm_comps rooted rest (rev segs ++ stack).
Proof.
  induction 1 as [|s segs Hs _ IH]; intros stack; simpl; [reflexivity|].
  destruct (seg_ok_parts _ Hs) as [Hn _].
  destruct (is_name_plain _ Hn) as [-> ->]. simpl.
  rewrite IH, <- app_assoc. reflexivity.
Qed.

Lemma abspath_trailing (env : os_env) (ss : list string) :
  ss <> [] -> Forall (fun s => seg_ok s = true) ss ->
  abspath env (abs_path ss ++ "/")%string = abs_path ss.
Proof.
  intros Hne HF. unfold abspath.
  replace (isabs (abs_path ss ++ "/")%string) with true by reflexivity.
  unfold normpath.
  rewrite split_trailing, (split_abs_path _ Hne HF).
  destruct ss as [|x ss]; [contradiction|].
  inversion HF as [|? ? Hx _]; subst.
  destruct (seg_ok_parts _ Hx) as [Hn Hs].
  destruct x as [|c x]; [discriminate Hn|].
  pose proof (no_sep_first _ _ Hs) as Hc.
  replace ((abs_path (String c x :: ss) ++ "/")%string =? "")%string
    with false by reflexivity.
  replace (starts_with "/" (abs_path (String c x :: ss) ++ "/")%string)
    with true by reflexivity.
  replace (starts_with "//" (abs_path (String c x :: ss) ++ "/")%string)
    with false
    by (unfold abs_path; destruct ss; simpl; rewrite Hc; reflexivity).
  simpl andb. cbv iota.
  change (norm_comps true (("" :: String c x :: ss) ++ [""]) [])
    with (norm_comps true ((String c x :: ss) ++ [""]) []).
  rewrite (norm_comps_app true _ [""] HF []). simpl norm_comps.
  rewrite app_nil_r.
  change (rev ss ++ [String c x]) with (rev (String c x :: ss)).
  rewrite rev_involutive. reflexivity.
Qed.

(** X15: when the storage path is given with a trailing separator, its base
    name is empty and a File node loses the storage-name prefix: it stores
    the same relative path a Dir node stores. *)
Theorem file_relpath_trailing_separator (env : os_env) (ss rs : list string) :
  ss <> [] -> rs <> [] ->
  Forall (fun s => seg_ok s = true) ss ->
  Forall (fun s => seg_ok s = true) rs ->
  file_relpath env (abs_path (ss ++ rs)) (abs_path ss ++ "/")%string
    = Ret (String.concat "/" rs) /\
  dir_relpath env (abs_path (ss ++ rs)) (abs_path ss ++ "/")%string
    = Ret (String.concat "/" rs).
Proof.
  intros Hs Hr HFs HFr.
  assert (Hne : ss ++ rs <> []) by (destruct ss; [contradiction|discriminate]).
  assert (HF : Forall (fun s => seg_ok s = true) (ss ++ rs))
    by (apply Forall_app; auto).
  assert (Hrel : relpath_of env (abspath env (abs_path (ss ++ rs)))
                   (abs_path ss ++ "/")%string
                 = Ret (String.concat "/" rs)).
  { pose proof (relpath_below env ss rs Hs Hr HFs HFr) as H.
    unfold relpath_of in H |- *.
    rewrite (abspath_trailing env _ Hs HFs).
    rewrite !(abspath_abs_path env _ Hne HF).
    rewrite (abspath_abs_path env _ Hs HFs) in H.
    rewrite (abspath_abs_path env _ Hne HF) in H. exact H. }
  split; [|exact Hrel].
  unfold file_relpath. rewrite Hrel. unfold bind. f_equal.
  unfold basename. rewrite split_trailing, last_last.
  unfold path_join.
  destruct rs as [|r rs]; [contradiction|].
  inversion HFr as [|? ? Hr0 _]; subst.
  rewrite (seg_ok_relative r rs Hr0). reflexivity.
Qed.

Lemma file_relpath_trailing_separator_witness :
  file_relpath example_env (abs_path (["mnt"; "usb1"] ++ ["music"; "song.mp3"]))
               (abs_path ["mnt"; "usb1"] ++ "/")%string
    = Ret (String.concat "/" ["music"; "song.mp3"]) /\
  dir_relpath example_env (abs_path (["mnt"; "usb1"] ++ ["music"; "song.mp3"]))
              (abs_path ["mnt"; "usb1"] ++ "/")%string
    = Ret (String.concat "/" ["music"; "song.mp3"]).
Proof.
  apply (file_relpath_trailing_separator example_env ["mnt"; "usb1"]
           ["music"; "song.mp3"]);
    [discriminate|discriminate|repeat constructor|repeat constructor].
Defined.

(** ** The meta node and the storage list *)

Lemma dict_get_set_same (k : string) (v : metaval) (d : dict) :
  dict_get k (dict_set k v d) = Some v.
Proof.
  induction d as [|[k' v'] d IH]; simpl.
  - rewrite String.eqb_refl. reflexivity.
  - destruct (k' =? k)%string eqn:E; simpl.
    + rewrite String.eqb_refl. reflexivity.
    + rewrite E. exact IH.
Qed.

Lemma dict_get_set_other (k k0 : string) (v : metaval) (d : dict) :
  k0 <> k -> dict_get k0 (dict_set k v d) = dict_get k0 d.
Proof.
  intros Hne. induction d as [|[k' v'] d IH]; simpl.
  - destruct (String.eqb_spec k k0); [congruence|reflexivity].
  - destruct (String.eqb_spec k' k) as [->|Hk]; simpl.
    + destruct (String.eqb_spec k k0); [congruence|reflexivity].
    + destruct (k' =? k0)%string; [reflexivity|exact IH].
Qed.

(** X16: updating an existing meta node stamps the access time and version
    and nothing else: every other entry of its attributes, the creation
    stamp among them, and its name and type stay as they were. *)
Theorem update_metanode_keeps_created (epoch : Z) (version : string)
    (m : meta_node) (d : dict) :
  meta_attr m = Some d ->
  exists m' d',
    update_metanode epoch version (Some m) = Ret m' /\
    meta_attr m' = Some d' /\
    meta_name m' = meta_name m /\ meta_type m' = meta_type m /\
    dict_get "access" d' = Some (MInt epoch) /\
    dict_get "access_version" d' = Some (MStr version) /\
    (forall k, k <> "access" -> k <> "access_version" ->
               dict_get k d' = dict_get k d).
Proof.
  intros Hd. unfold update_metanode. rewrite Hd. simpl.
  eexists. eexists. split; [reflexivity|]. simpl.
  split; [reflexivity|]. split; [reflexivity|]. split; [reflexivity|].
  split; [|split].
  - rewrite dict_get_set_other by discriminate. apply dict_get_set_same.
  - apply dict_get_set_same.
  - intros k H1 H2. rewrite !dict_get_set_other by assumption. reflexivity.
Qed.

Lemma update_metanode_keeps_created_witness :
  exists m' d',
    update_metanode 20 "0.2"
      (Some (MetaNode "meta" "meta" (Some [("created", MInt 10)]))) = Ret m' /\
    meta_attr m' = Some d' /\
    meta_name m' = "meta" /\ meta_type m' = "meta" /\
    dict_get "access" d' = Some (MInt 20) /\
    dict_get "access_version" d' = Some (MStr "0.2") /\
    (forall k, k <> "access" -> k <> "access_version" ->
               dict_get k d' = dict_get k [("created", MInt 10)]).
Proof.
  apply (update_metanode_keeps_created 20 "0.2"
           (MetaNode "meta" "meta" (Some [("created", MInt 10)]))).
  reflexivity.
Defined.

(** X17: a catalog opened twice keeps the first creation stamp: the meta
    node made by a first call and updated by a second one carries the
    creation time and version of the first call and the access time and
    version of the second. *)
Theorem update_metanode_twice (e1 e2 : Z) (v1 v2 : string) :
  exists m1 m2 d,
    update_metanode e1 v1 None = Ret m1 /\
    update_metanode e2 v2 (Some m1) = Ret m2 /\
    meta_attr m2 = Some d /\
    map fst d = ["created"; "created_version"; "access"; "access_version"] /\
    dict_get "created" d = Some (MInt e1) /\
    dict_get "created_version" d = Some (MStr v1) /\
    dict_get "access" d = Some (MInt e2) /\
    dict_get "access_version" d = Some (MStr v2).
Proof.
  do 3 eexists. split; [reflexivity|]. split; [reflexivity|]. repeat split.
Qed.

Lemma first_of_type_spec (ty : string) (cs : list node) :
  forall k,
    match first_of_type ty cs k with
    | Some i =>
        (k <= i)%nat /\
        (exists c, nth_error cs (i - k) = Some c /\ type c = ty) /\
        Forall (fun c => type c <> ty) (firstn (i - k) cs)
    | None => Forall (fun c => type c <> ty) cs
    end.
Proof.
  induction cs as [|c cs IH]; intros k; simpl; [constructor|].
  destruct (String.eqb_spec (type c) ty) as [Hc|Hc].
  - rewrite Nat.sub_diag. simpl. split; [lia|]. split; [eauto|constructor].
  - specialize (IH (S k)). destruct (first_of_type ty cs (S k)) as [i|].
    + destruct IH as (Hle & (c' & Hc' & Hty) & Hbefore).
      replace (i - k)%nat with (S (i - S k)) by lia. simpl.
      split; [lia|]. split; [eauto|]. constructor; assumption.
    + constructor; assumption.
Qed.

Lemma get_meta_node_child (t : node) (top : loc) (topn : node) :
  node_at t top = Some topn ->
  match get_meta_node t top with
  | Some l =>
      exists i c,
        l = top ++ [i] /\ nth_error (children topn) i = Some c /\
        node_at t l = Some c /\ type c = TYPE_META /\
        Forall (fun c' => type c' <> TYPE_META) (firstn i (children topn))
  | None => Forall (fun c => type c <> TYPE_META) (children topn)
  end.
Proof.
  intros Htop. unfold get_meta_node, obj. rewrite Htop.
  pose proof (first_of_type_spec TYPE_META (children topn) 0) as H.
  destruct (first_of_type TYPE_META (children topn) 0) as [i|]; [|exact H].
  destruct H as (_ & (c & Hc & Hty) & Hbefore). rewrite Nat.sub_0_r in *.
  exists i, c. split; [reflexivity|]. split; [exact Hc|]. split; [|auto].
  eapply node_at_child; eassumption.
Qed.

(** X18: [get_meta_node] returns the first child of the top node whose type
    is ['meta'], or no node exactly when no child has that type. *)
Theorem get_meta_node_first (t : node) (top : loc) (topn : node) :
  node_at t top = Some topn ->
  match get_meta_node t top with
  | Some l =>
      exists i c,
        l = top ++ [i] /\ node_at t l = Some c /\ type c = TYPE_META /\
        Forall (fun c' => type c' <> TYPE_META) (firstn i (children topn))
  | None => Forall (fun c => type c <> TYPE_META) (children topn)
  end.
Proof.
  intros Htop. pose proof (get_meta_node_child t top topn Htop) as H.
  destruct (get_meta_node t top); [|exact H].
  destruct H as (i & c & Hl & _ & Hc & Hty & Hb). eauto 6.
Qed.

Lemma get_meta_node_first_witness :
  match get_meta_node catalog_meta [] with
  | Some l =>
      exists i c,
        l = [] ++ [i] /\ node_at catalog_meta l = Some c /\ type c = TYPE_META /\
        Forall (fun c' => type c' <> TYPE_META) (firstn i (children catalog_meta))
  | None => Forall (fun c => type c <> TYPE_META) (children catalog_meta)
  end.
Proof. apply (get_meta_node_first catalog_meta [] catalog_meta). reflexivity. Defined.

(** X19: [get_storage_names] lists the names of all children of the top
    node, whatever their type: when the catalog holds a meta node, its name
    is in the list too. *)
Theorem storage_names_include_meta (t : node) (l : loc) :
  get_meta_node t [] = Some l ->
  In (name (obj t l)) (get_storage_names t).
Proof.
  intros H. pose proof (get_meta_node_child t [] t eq_refl) as Hm.
  rewrite H in Hm. destruct Hm as (i & c & -> & Hnth & Hc & _).
  unfold obj. rewrite Hc. unfold get_storage_names.
  apply in_map. eapply nth_error_In. exact Hnth.
Qed.

Lemma storage_names_include_meta_witness :
  In (name (obj catalog_meta [1%nat])) (get_storage_names catalog_meta).
Proof. apply (storage_names_include_meta catalog_meta [1%nat]). reflexivity. Defined.

(** ** Exact and glob resolution side by side *)

Lemma sort_tree_on_single {A : Type} (self : noder) (ob : A -> node) (x : A) :
  _sort_tree_on self ob [x] = [x].
Proof. unfold _sort_tree_on. destruct (sortsize self); reflexivity. Qed.

(** Under distinct sibling names [walk] without [rec] hands back all the
    matches, sorted. *)
Lemma walk_sorted_matches (name_match : string -> string -> bool)
    (self : noder) (t : node) (root start : loc) (n : node)
    (path : string) (segs : list string) :
  (forall nm pat, is_wildcard pat = false ->
                  name_match nm pat = (nm =? pat)%string) ->
  glob_segments t root path = Some (start, segs) ->
  node_at t start = Some n ->
  well_attributed t ->
  uniq_names n ->
  walk name_match self t root path false
  = Ret (Some (_sort_tree_on self (obj t)
                 (map (app start) (all_matches name_match segs n)))).
Proof.
  intros Hlit Hsegs Hn Hattr Hu.
  destruct (glob_segments_start _ _ _ _ _ Hsegs) as (Hstart & Hne & HF).
  unfold walk, resolver_glob. rewrite Hstart. simpl bind at 1.
  destruct (glob_parts_spec name_match Hlit t segs Hne HF start n Hn)
    as [(X & -> & Hincl & Hall) | [-> Hnone]].
  - rewrite <- (Hall Hu). destruct X as [|x X].
    + rewrite sort_tree_on_nil. reflexivity.
    + apply (walk_listing self t start n name_match segs (x :: X)
               Hn Hne Hattr Hincl).
  - rewrite (Hnone Hu). simpl. rewrite sort_tree_on_nil. reflexivity.
Qed.

Section LiteralGlob.
Variable name_match : string -> string -> bool.
Hypothesis literal_match :
  forall nm pat, is_wildcard pat = false ->
                 name_match nm pat = (nm =? pat)%string.

Lemma literal_child_matches (s : string) (rest : list string)
    (cs : list node) :
  is_wildcard s = false ->
  NoDup (map name cs) ->
  forall k,
    flat_map (child_matches name_match s rest) (indexed k cs)
    = match find_child s cs k with
      | Some i =>
          match nth_error cs (i - k) with
          | Some c => map (cons i) (all_matches name_match rest c)
          | None => []
          end
      | None => []
      end.
Proof.
  intros Hw. induction cs as [|c cs IH]; intros Hnd k; [reflexivity|].
  inversion Hnd as [|? ? Hnotin Hnd']; subst.
  simpl flat_map. unfold child_matches at 1. simpl fst. simpl snd.
  rewrite (literal_match _ _ Hw). simpl find_child.
  destruct (String.eqb_spec (name c) s) as [Hc|Hc].
  - rewrite Nat.sub_diag. simpl nth_error.
    rewrite no_match_no_contribution; [apply app_nil_r|].
    apply Forall_forall. intros c' Hin. rewrite (literal_match _ _ Hw).
    apply String.eqb_neq. intros Hc'. apply Hnotin.
    rewrite Hc, <- Hc'. apply in_map. exact Hin.
  - simpl. rewrite (IH Hnd' (S k)).
    destruct (find_child s cs (S k)) as [i|] eqn:Ef; [|reflexivity].
    destruct (find_child_spec _ _ _ _ Ef) as (_ & Hle & _).
    replace (i - k)%nat with (S (i - S k)) by lia. reflexivity.
Qed.

(** For literal segments and distinct sibling names the glob finds the node
    of exact resolution and nothing else. *)
Lemma all_matches_literal (segs : list string) :
  Forall (fun s => is_wildcard s = false) segs ->
  forall n, uniq_names n ->
    all_matches name_match segs n
    = match resolve_exact n segs with
      | Some l => [l]
      | None => []
      end.
Proof.
  induction 1 as [|s segs Hs _ IH]; intros n Hu; [reflexivity|].
  change (all_matches name_match (s :: segs) n)
    with (flat_map (child_matches name_match s segs) (indexed 0 (children n))).
  rewrite (literal_child_matches s segs _ Hs (uniq_names_here _ Hu)).
  simpl resolve_exact.
  destruct (find_child s (children n) 0) as [i|]; [|reflexivity].
  rewrite Nat.sub_0_r.
  destruct (nth_error (children n) i) as [c|] eqn:Hc; [|reflexivity].
  rewrite (IH c (uniq_names_child _ _ _ Hu Hc)).
  destruct (resolve_exact c segs); reflexivity.
Qed.
End LiteralGlob.

(** X20: for a path of names without [*] and [?], on a tree with distinct
    sibling names, glob and exact resolution agree: [walk] returns the one
    node [get_node] returns, or the empty list when [get_node] returns no
    node. *)
Theorem walk_agrees_with_get_node (name_match : string -> string -> bool)
    (self : noder) (t : node) (root : loc) (n : node) (path : string) :
  (forall nm pat, is_wildcard pat = false ->
                  name_match nm pat = (nm =? pat)%string) ->
  node_at t root = Some n ->
  Forall (fun s => is_name s = true) (split sep path) ->
  Forall (fun s => is_wildcard s = false) (split sep path) ->
  well_attributed t ->
  uniq_names n ->
  exists r,
    get_node t root path = Ret r /\
    walk name_match self t root path false
    = Ret (Some (match r with Some l => [l] | None => [] end)).
Proof.
  intros Hlit Hn Hnames Hplain Hattr Hu.
  exists (option_map (app root) (resolve_exact n (split sep path))). split.
  - unfold get_node, resolver_get, resolver_start.
    rewrite (names_are_relative _ Hnames). simpl.
    rewrite (get_parts_exact _ _ Hnames _ _ Hn).
    destruct (resolve_exact n (split sep path)); reflexivity.
  - assert (Hsegs : glob_segments t root path = Some (root, split sep path)).
    { unfold glob_segments.
      replace (forallb is_name (split sep path)) with true; [reflexivity|].
      symmetry. apply forallb_forall. rewrite Forall_forall in Hnames.
      exact Hnames. }
    rewrite (walk_sorted_matches name_match self t root root n path _
               Hlit Hsegs Hn Hattr Hu).
    rewrite (all_matches_literal name_match Hlit _ Hplain n Hu).
    destruct (resolve_exact n (split sep path)); simpl.
    + rewrite sort_tree_on_single. reflexivity.
    + rewrite sort_tree_on_nil. reflexivity.
Qed.

Lemma catalog_uniq_names : uniq_names catalog.
Proof.
  unfold uniq_names. repeat constructor; simpl; intuition discriminate.
Qed.

Lemma walk_agrees_with_get_node_witness :
  exists r,
    get_node catalog [] "usb1/music/cover.jpg" = Ret r /\
    walk wildcard_match default_noder catalog [] "usb1/music/cover.jpg" false
    = Ret (Some (match r with Some l => [l] | None => [] end)).
Proof.
  apply (walk_agrees_with_get_node wildcard_match default_noder catalog []
           catalog "usb1/music/cover.jpg").
  - exact wildcard_match_literal.
  - reflexivity.
  - repeat constructor.
  - repeat constructor.
  - exact catalog_well_attributed.
  - exact catalog_uniq_names.
Defined.

(** ** Separators at the end of a path *)

Lemma get_parts_app (t : node) (a b : list string) :
  forall cur,
    get_parts t cur (a ++ b)
    = (cur' <- get_parts t cur a ;; get_parts t cur' b).
Proof.
  induction a as [|x a IH]; intros cur; simpl; [reflexivity|].
  destruct (get_step t cur x) as [cur'|e]; simpl; [apply IH|reflexivity].
Qed.

Lemma get_parts_trailing (t : node) (parts : list string) (cur : option loc) :
  get_parts t cur (parts ++ [""]) = get_parts t cur parts.
Proof.
  rewrite get_parts_app.
  destruct (get_parts t cur parts) as [cur'|e]; reflexivity.
Qed.

(** X21: a separator at the end of a path makes no difference to exact
    resolution: [get_node] returns for [path/] what it returns for a
    non-empty [path]. *)
Theorem get_node_trailing_separator (t : node) (top : loc) (path : string) :
  path <> ""%string ->
  get_node t top (path ++ "/")%string = get_node t top path.
Proof.
  intros Hne. unfold get_node.
  replace (resolver_get t top (path ++ "/")%string)
    with (resolver_get t top path); [reflexivity|]. symmetry.
  unfold resolver_get, resolver_start. rewrite split_trailing.
  destruct path as [|a s]; [contradiction|].
  change (starts_with "/" (String a s ++ "/")%string)
    with (starts_with "/" (String a s)).
  destruct (starts_with "/" (String a s)) eqn:Habs.
  - destruct (split_absolute _ Habs) as [rest Hs]. rewrite Hs.
    simpl tl.
    assert (Hrest : rest <> []).
    { intros ->. simpl in Hs. simpl in Habs.
      rewrite andb_true_r in Habs. apply Ascii.eqb_eq in Habs. subst a.
      change (Ascii.eqb "/" sep) with true in Hs.
      destruct (split sep s) eqn:E; [exact (split_nonempty _ _ E)|discriminate]. }
    destruct rest as [|p0 rest]; [contradiction|]. simpl.
    destruct (p0 =? "")%string; [reflexivity|].
    destruct (negb (p0 =? name t)%string); [reflexivity|].
    simpl. apply get_parts_trailing.
  - simpl. apply get_parts_trailing.
Qed.

Lemma get_node_trailing_separator_witness :
  get_node catalog [] ("usb1/music" ++ "/")%string
  = get_node catalog [] "usb1/music".
Proof. apply get_node_trailing_separator. discriminate. Defined.

(** ** [walk] with [rec] *)

(** X22: with [rec] set [walk] still raises nothing on a path of pattern
    segments, but what it returns is either the empty list, when the
    resolver found nothing, or [None], after printing the subtree; it is the
    empty list when no node matches and, with distinct sibling names, [None]
    whenever some node matches. *)
Theorem walk_recursive_listing (name_match : string -> string -> bool)
    (self : noder) (t : node) (root start : loc) (n : node)
    (path : string) (segs : list string) :
  (forall nm pat, is_wildcard pat = false ->
                  name_match nm pat = (nm =? pat)%string) ->
  glob_segments t root path = Some (start, segs) ->
  node_at t start = Some n ->
  well_attributed t ->
  exists r,
    walk name_match self t root path true = Ret r /\
    (r = None \/ r = Some []) /\
    (all_matches name_match segs n = [] -> r = Some []) /\
    (uniq_names n -> all_matches name_match segs n <> [] -> r = None).
Proof.
  intros Hlit Hsegs Hn Hattr.
  exact (walk_rec_result name_match self t root start n path segs
           Hlit Hsegs Hn Hattr).
Qed.

Lemma walk_recursive_listing_witness :
  exists r,
    walk wildcard_match default_noder catalog [] "/top/usb1/*" true = Ret r /\
    (r = None \/ r = Some []) /\
    (all_matches wildcard_match ["usb1"; "*"] catalog = [] -> r = Some []) /\
    (uniq_names catalog ->
     all_matches wildcard_match ["usb1"; "*"] catalog <> [] -> r = None).
Proof.
  apply (walk_recursive_listing wildcard_match default_noder catalog [] []
           catalog "/top/usb1/*" ["usb1"; "*"]).
  - exact wildcard_match_literal.
  - reflexivity.
  - reflexivity.
  - exact catalog_well_attributed.
Defined.

(** ** Search on a catalog *)

Lemma preorder_locs_unfold (n : node) (l : loc) :
  preorder_locs n l = l :: preorder_children l (children n) 0.
Proof.
  destruct n as [nm ty rp sz m a f t at_ ts_ cs]. simpl. f_equal.
  generalize 0%nat. induction cs as [|c cs IH]; intros i; [reflexivity|].
  simpl. rewrite IH. reflexivity.
Qed.

Lemma preorder_children_In (l : loc) (cs : list node) :
  forall k x, In x (preorder_children l cs k) ->
    exists i c, (k <= i)%nat /\ nth_error cs (i - k) = Some c
                /\ In x (preorder_locs c (l ++ [i])).
Proof.
  induction cs as [|c0 cs IH]; intros k x H; simpl in H; [contradiction|].
  apply in_app_or in H. destruct H as [H|H].
  - exists k, c0. rewrite Nat.sub_diag. auto.
  - destruct (IH _ _ H) as (i & c & Hle & Hn & Hx).
    exists i, c. split; [lia|]. split; [|exact Hx].
    replace (i - k)%nat with (S (i - S k)) by lia. exact Hn.
Qed.

Lemma preorder_locs_valid (n : node) :
  forall l x, In x (preorder_locs n l) ->
    exists m d, x = l ++ m /\ node_at n m = Some d.
Proof.
  induction n as [n IH] using node_ind'. intros l x H.
  rewrite preorder_locs_unfold in H. destruct H as [<-|H].
  - exists [], n. rewrite app_nil_r. auto.
  - destruct (preorder_children_In _ _ _ _ H) as (i & c & _ & Hc & Hx).
    rewrite Nat.sub_0_r in Hc. rewrite Forall_forall in IH.
    destruct (IH c (nth_error_In _ _ Hc) _ _ Hx) as (m & d & -> & Hd).
    exists (i :: m), d. split.
    + rewrite <- app_assoc. reflexivity.
    + simpl. rewrite Hc. exact Hd.
Qed.

Lemma forallb_nth {A : Type} (P : A -> bool) (l : list A) (i : nat) (x : A) :
  forallb P l = true -> nth_error l i = Some x -> P x = true.
Proof.
  intros H Hx. rewrite forallb_forall in H. apply H.
  eapply nth_error_In. exact Hx.
Qed.

(** Below a built Storage, Dir or File there are Files, Dirs and archive
    members only. *)
Lemma built_below (m : loc) :
  forall s d, built s = true -> m <> [] -> node_at s m = Some d ->
    type d = TYPE_FILE \/ type d = TYPE_DIR \/ type d = TYPE_ARC.
Proof.
  induction m as [|j m IH]; intros s d Hb Hne Hd; [contradiction|].
  simpl in Hd. destruct (nth_error (children s) j) as [c|] eqn:Hc; [|discriminate].
  rewrite built_unfold in Hb.
  destruct (type s =? TYPE_FILE)%string.
  - apply andb_true_iff in Hb. destruct Hb as [_ Ha].
    pose proof (forallb_nth _ _ _ _ Ha Hc) as Harc.
    pose proof (arc_tree_preorder _ Harc) as HF. rewrite Forall_forall in HF.
    right. right. apply HF. eapply node_at_preorder. exact Hd.
  - destruct ((type s =? TYPE_DIR) || (type s =? TYPE_STORAGE))%string;
      [|discriminate].
    pose proof (forallb_nth _ _ _ _ Hb Hc) as Hk. simpl in Hk.
    apply andb_true_iff in Hk. destruct Hk as [Hty Hbc].
    destruct m as [|k m].
    + simpl in Hd. inversion Hd; subst. unfold is_type in Hty.
      apply orb_true_iff in Hty.
      destruct Hty as [H|H]; apply String.eqb_eq in H; auto.
    + apply (IH c d Hbc); [discriminate|exact Hd].
Qed.

Lemma print_node_search (self : noder) (t : node) (l : loc) (d : node) :
  node_at t l = Some d -> has_own_attributes d = true ->
  type d = TYPE_FILE \/ type d = TYPE_DIR \/ type d = TYPE_ARC ->
  (2 <= List.length l)%nat ->
  _print_node self t (Some l) true true true = Ret tt /\
  exists rp, relpath d = Some rp.
Proof.
  intros Hd Hattr Hty Hlen. unfold _print_node, deref. rewrite Hd. simpl.
  unfold has_own_attributes in Hattr. unfold when, touch, _get_storage.
  destruct (Nat.leb_spec 2 (List.length l)) as [_|Hbad]; [|lia].
  unfold has_int_size in Hattr.
  destruct Hty as [Hty|[Hty|Hty]]; rewrite Hty in *; simpl in *;
    destruct (relpath d), (md5 d), (size d) as [[|z]|]; try discriminate;
    try (split; [reflexivity|eauto]).
  - split; [simpl; destruct (negb (z =? 0)); reflexivity|eauto].
  - destruct (archive d); [|discriminate].
    split; [destruct (arc self); reflexivity|eauto].
  - destruct (archive d); [|discriminate].
    split; [destruct (arc self); reflexivity|eauto].
Qed.

Lemma find_name_paths_ok (self : noder) (t : node) (found : list loc) :
  Forall (fun f =>
            type (obj t f) = TYPE_STORAGE \/
            (_print_node self t (Some f) true true true = Ret tt /\
             exists rp, relpath (obj t f) = Some rp)) found ->
  exists paths, find_name_paths self t found = Ret paths.
Proof.
  induction 1 as [|f found Hf _ [paths IH]]; simpl; [eauto|].
  destruct Hf as [Hs|[Hp [rp Hrp]]].
  - rewrite Hs.
    replace (TYPE_STORAGE =? TYPE_STORAGE)%string with true by reflexivity.
    eauto.
  - destruct (type (obj t f) =? TYPE_STORAGE)%string; [eauto|].
    rewrite Hp, Hrp, IH. simpl. eauto.
Qed.

(** X23: on a catalog as the builder leaves it (a Top node over built
    Storages, every node with the attributes of its type) a search from the
    top raises nothing unless the term matches the top node's own name: it
    returns every node of the tree whose name contains the term, Storage
    nodes included, in traversal order. *)
Theorem find_name_on_catalog (self : noder) (t : node) (key : string) :
  catalog_ok t ->
  _find_name key t = false ->
  find_name self t [] key = Ret (findall t [] (_find_name key)).
Proof.
  intros (Htop & Hstor & Hattr) Hkey. unfold find_name.
  assert (Hok : exists paths,
             find_name_paths self t (findall t [] (_find_name key)) = Ret paths).
  { apply find_name_paths_ok. apply Forall_forall. intros f Hf.
    unfold findall in Hf. apply filter_In in Hf. destruct Hf as [Hin Hm].
    change (obj t []) with t in Hin.
    destruct (preorder_locs_valid t [] f Hin) as (m & d & -> & Hd).
    simpl app in *. unfold obj in Hm |- *. rewrite Hd in Hm |- *.
    destruct m as [|i [|j m]].
    - simpl in Hd. inversion Hd; subst. congruence.
    - left. simpl in Hd.
      destruct (nth_error (children t) i) as [s|] eqn:Hs; [|discriminate].
      inversion Hd; subst. rewrite Forall_forall in Hstor.
      apply (Hstor d). eapply nth_error_In. exact Hs.
    - right.
      assert (Hd' := Hd). simpl in Hd'.
      destruct (nth_error (children t) i) as [s|] eqn:Hs; [|discriminate].
      rewrite Forall_forall in Hstor.
      destruct (Hstor s (nth_error_In _ _ Hs)) as [_ Hb].
      assert (Hty : type d = TYPE_FILE \/ type d = TYPE_DIR \/ type d = TYPE_ARC).
      { apply (built_below (j :: m) s d Hb); [discriminate|exact Hd']. }
      unfold well_attributed in Hattr. rewrite Forall_forall in Hattr.
      pose proof (Hattr d (node_at_preorder _ _ _ Hd)) as Ha.
      destruct (print_node_search self t (i :: j :: m) d Hd Ha Hty) as [Hp Hrp];
        [simpl; lia|].
      unfold obj in Hp. split; [exact Hp|exact Hrp]. }
  destruct Hok as [paths ->]. reflexivity.
Qed.

Lemma catalog_is_ok : catalog_ok catalog.
Proof.
  split; [reflexivity|]. split; [|exact catalog_well_attributed].
  repeat constructor.
Qed.

Lemma find_name_on_catalog_witness :
  find_name default_noder catalog [] "usb"
  = Ret (findall catalog [] (_find_name "usb")).
Proof. apply find_name_on_catalog; [exact catalog_is_ok|reflexivity]. Defined.

(** ** The tree listing *)

Lemma render_children_preorder (self : noder) (l : loc) (cs : list node) :
  Forall (fun c => forall l', Permutation (render self c l') (preorder_locs c l')) cs ->
  forall i,
    Permutation (List.concat (map snd (render_children self l cs i)))
                (preorder_children l cs i).
Proof.
  induction 1 as [|c cs Hc _ IH]; intros i; simpl; [constructor|].
  apply Permutation_app; [apply Hc|apply IH].
Qed.

(** X24: the tree listing shows every node of the subtree exactly once,
    whatever the sort policy: the rows that [print_tree] prints are a
    rearrangement of the nodes of the subtree, and the first row is the
    node the listing was asked for. *)
Theorem print_tree_rows (self : noder) (n : node) (l : loc) :
  Permutation (render self n l) (preorder_locs n l) /\
  hd_error (render self n l) = Some l.
Proof.
  split; [|rewrite render_unfold; reflexivity].
  revert l. induction n as [n IH] using node_ind'. intros l.
  rewrite render_unfold, preorder_locs_unfold. constructor.
  etransitivity; [|apply (render_children_preorder self l _ IH)].
  rewrite <- !flat_map_concat_map. apply Permutation_flat_map.
  apply sort_tree_on_perm.
Qed.
